(** * cloud-genai-doc-intel: the structured-extraction Lambda

    A shallow embedding of [lambda/lambda_function.py] and the properties of
    its three functions: [extract_json_object] (locating and repairing the
    JSON object in a model reply), [call_hf_extract] (the retry loop around
    the inference endpoint, with its repair pass and back-off sleeps) and
    [lambda_handler] (the driver that persists the artifacts).

    Conventions of the embedding.
    - A Python [str] is a list of Unicode code points ([N]); [len], slicing
      and [find] count code points, as in Python.
    - A Python exception is a value of [exn]; a call that may raise returns
      a [result].
    - The remote endpoint, [random.random], the environment variables and
      the PDF reader are read from an [Env]; what the program does to the
      outside (requests sent, sleeps, objects written) is recorded in a
      [World], threaded through the effectful functions.
    - Delays are rationals: [1.0 * 2 ** (attempt - 1)] is exact in binary
      floating point and the jitter is taken as the rational it denotes.
      Where the rounding of the sum matters, the jitter is read as what the
      delay slept exceeds the power of two by, which can reach 1. *)

From Stdlib Require Import List ZArith NArith QArith Lqa Bool Lia String Ascii.
From Stdlib Require Import Sorted Permutation.
Import ListNotations.

Local Open Scope N_scope.
Set Warnings "-register-all,-abstract-large-number".

(** ** Python strings *)

Module PyStr.

Definition char := N.
Definition str := list char.

(** [lit] reads an ASCII literal; a backquote in the literal stands for the
    double quote (code point 34), which keeps JSON texts readable. *)
Definition lit_char (a : ascii) : char :=
  let n := N_of_ascii a in if n =? 96 then 34 else n.

Definition lit (s : string) : str := map lit_char (list_ascii_of_string s).

Definition LBRACE : char := 123.
Definition RBRACE : char := 125.
Definition LBRACKET : char := 91.
Definition RBRACKET : char := 93.
Definition COMMA : char := 44.
Definition DQUOTE : char := 34.
Definition SQUOTE : char := 39.
Definition NEWLINE : char := 10.
(** U+201C, U+201D, U+2019 and U+2018. *)
Definition LEFT_DOUBLE_QUOTATION_MARK : char := 8220.
Definition RIGHT_DOUBLE_QUOTATION_MARK : char := 8221.
Definition RIGHT_SINGLE_QUOTATION_MARK : char := 8217.
Definition LEFT_SINGLE_QUOTATION_MARK : char := 8216.

Definition mem_char (c : char) (l : list char) : bool := existsb (N.eqb c) l.

(** [str.isspace] on one code point; it is also the class [\s] of [re] on a
    [str] pattern and the set [str.strip()] removes. *)
Definition isspace (c : char) : bool :=
  ((9 <=? c) && (c <=? 13)) || ((28 <=? c) && (c <=? 32))
  || mem_char c [133; 160; 5760; 8232; 8233; 8239; 8287; 12288]
  || ((8192 <=? c) && (c <=? 8202)).

Fixpoint lstrip (s : str) : str :=
  match s with
  | c :: t => if isspace c then lstrip t else s
  | [] => []
  end.

Definition rstrip (s : str) : str := rev (lstrip (rev s)).

Definition strip (s : str) : str := rstrip (lstrip s).

(** [s.find(c)] for a one-character needle: the first index, or -1. *)
Fixpoint find (c : char) (s : str) : Z :=
  match s with
  | [] => (-1)%Z
  | x :: t =>
      if x =? c then 0%Z
      else let i := find c t in if (i =? -1)%Z then (-1)%Z else (i + 1)%Z
  end.

(** [s.rfind(c)]: the last index, or -1. *)
Fixpoint rfind (c : char) (s : str) : Z :=
  match s with
  | [] => (-1)%Z
  | x :: t =>
      let i := rfind c t in
      if (i =? -1)%Z then (if x =? c then 0%Z else (-1)%Z) else (i + 1)%Z
  end.

(** [s[lo:hi]] for [0 <= lo]; the slice is empty when [hi <= lo]. *)
Definition slice (s : str) (lo hi : Z) : str :=
  firstn (Z.to_nat (hi - lo)) (skipn (Z.to_nat lo) s).

(** [s[:n]]. *)
Definition prefix (n : nat) (s : str) : str := firstn n s.

(** [s.replace(old, new)] for one-character [old] and [new]. *)
Definition replace (old new : char) (s : str) : str :=
  map (fun c => if c =? old then new else c) s.

(** [sep.join(parts)]. *)
Fixpoint join (sep : str) (parts : list str) : str :=
  match parts with
  | [] => []
  | [p] => p
  | p :: rest => p ++ sep ++ join sep rest
  end.

Fixpoint startswith (p s : str) : bool :=
  match p, s with
  | [], _ => true
  | a :: p', b :: s' => (a =? b) && startswith p' s'
  | _ :: _, [] => false
  end.

Definition endswith (p s : str) : bool := startswith (rev p) (rev s).

Fixpoint str_eqb (a b : str) : bool :=
  match a, b with
  | [], [] => true
  | x :: a', y :: b' => (x =? y) && str_eqb a' b'
  | _, _ => false
  end.

End PyStr.
Import PyStr.

(** ** Exceptions and results *)

(** [last_err] is the dictionary the retry loop keeps: [None] before any
    failure, [{"code", "reason", "body"}] after an HTTP failure,
    [{"error": str(e), "repair_error": str(e2)}] after a parse/repair
    failure.  The two [str(...)] fields are kept as the exceptions they
    render.  [RuntimeError msg d] is [RuntimeError(msg + str(d))]; for the
    missing-token error [d] is [NoError] and [msg] is the whole message. *)
Inductive exn : Type :=
| ValueError (msg : str)
| JSONDecodeError
| HTTPError (code : Z) (reason body : str)
| OtherException (descr : str)
| RuntimeError (msg : str) (detail : last_err)
with last_err : Type :=
| NoError
| HttpDetail (code : Z) (reason body : str)
| ParseRepairDetail (error repair_error : exn).

Inductive result (A : Type) : Type :=
| Return (a : A)
| Raise (e : exn).
Arguments Return {A} a.
Arguments Raise {A} e.

(** ** JSON values and [json.loads]

    [json.loads] belongs to the Python standard library; this is a model of
    its default decoder (the C scanner, strict mode, no hooks): the grammar
    of RFC 8259 extended with [NaN], [Infinity] and [-Infinity], white space
    restricted to space, tab, line feed and carriage return, and a [dict]
    for each object (a repeated key keeps its first position and takes the
    last value).  An integer literal is its value; a literal with a fraction
    or an exponent is kept as its lexeme, since the embedding has no binary
    floating point.  The diagnostic text and position of [JSONDecodeError]
    are not modelled, nor is the interpreter's recursion limit. *)

Module Json.

Inductive json : Type :=
| JNull
| JBool (b : bool)
| JInt (n : Z)
| JFloat (lexeme : str)
| JString (s : str)
| JArray (items : list json)
| JObject (members : list (str * json)).

(** [d[k] = v] on an insertion-ordered dictionary. *)
Fixpoint dict_set (k : str) (v : json) (d : list (str * json)) : list (str * json) :=
  match d with
  | [] => [(k, v)]
  | (k', v') :: d' =>
      if str_eqb k' k then (k', v) :: d' else (k', v') :: dict_set k v d'
  end.

Definition is_ws (c : char) : bool := mem_char c [32; 9; 10; 13].

Fixpoint skip_ws (s : str) : str :=
  match s with
  | c :: t => if is_ws c then skip_ws t else s
  | [] => []
  end.

Definition is_digit (c : char) : bool := (48 <=? c) && (c <=? 57).

Definition hex_val (c : char) : option N :=
  if is_digit c then Some (c - 48)
  else if (97 <=? c) && (c <=? 102) then Some (c - 87)
  else if (65 <=? c) && (c <=? 70) then Some (c - 55)
  else None.

Definition hex4 (a b c d : char) : option N :=
  match hex_val a, hex_val b, hex_val c, hex_val d with
  | Some x, Some y, Some z, Some w => Some (((x * 16 + y) * 16 + z) * 16 + w)
  | _, _, _, _ => None
  end.

Definition is_high_surrogate (u : N) : bool := (55296 <=? u) && (u <=? 56319).
Definition is_low_surrogate (u : N) : bool := (56320 <=? u) && (u <=? 57343).
Definition join_surrogates (hi lo : N) : N :=
  65536 + (hi - 55296) * 1024 + (lo - 56320).

(** The character a one-letter escape stands for. *)
Definition unescape (e : char) : option char :=
  if e =? 34 then Some 34 else if e =? 92 then Some 92
  else if e =? 47 then Some 47 else if e =? 98 then Some 8
  else if e =? 102 then Some 12 else if e =? 110 then Some 10
  else if e =? 114 then Some 13 else if e =? 116 then Some 9
  else None.

Definition push (c : char) (r : option (str * str)) : option (str * str) :=
  match r with
  | Some (k, rest) => Some (c :: k, rest)
  | None => None
  end.

(** [scanstring]: the text after an opening quote, up to the closing one.
    [None] is a [JSONDecodeError] (unterminated string, control character,
    invalid escape). *)
Fixpoint scanstring (s : str) : option (str * str) :=
  match s with
  | [] => None
  | c :: t =>
      if c =? 34 then Some ([], t)
      else if c =? 92 then
        match t with
        | [] => None
        | e :: t1 =>
            if e =? 117 then
              match t1 with
              | h1 :: h2 :: h3 :: h4 :: t2 =>
                  match hex4 h1 h2 h3 h4 with
                  | None => None
                  | Some u =>
                      if is_high_surrogate u then
                        match t2 with
                        | b :: u' :: g1 :: g2 :: g3 :: g4 :: t3 =>
                            if (b =? 92) && (u' =? 117) then
                              match hex4 g1 g2 g3 g4 with
                              | None => None
                              | Some u2 =>
                                  if is_low_surrogate u2
                                  then push (join_surrogates u u2) (scanstring t3)
                                  else push u (scanstring t2)
                              end
                            else push u (scanstring t2)
                        | _ => push u (scanstring t2)
                        end
                      else push u (scanstring t2)
                  end
              | _ => None
              end
            else
              match unescape e with
              | Some x => push x (scanstring t1)
              | None => None
              end
        end
      else if c <? 32 then None
      else push c (scanstring t)
  end.

Fixpoint span_digits (s : str) : str * str :=
  match s with
  | c :: t =>
      if is_digit c then let (ds, r) := span_digits t in (c :: ds, r)
      else ([], s)
  | [] => ([], [])
  end.

Fixpoint digits_value (ds : str) (acc : Z) : Z :=
  match ds with
  | [] => acc
  | d :: t => digits_value t (acc * 10 + Z.of_N (d - 48))%Z
  end.

(** A number: an optional minus sign; a zero, or a non-zero digit and any
    digits; optionally a point and one digit or more; optionally [e] or [E],
    an optional sign and one digit or more. *)
Definition scan_number (s : str) : option (json * str) :=
  let '(sign, s1) :=
    match s with
    | c :: t => if c =? 45 then ([c], t) else ([], s)
    | [] => ([], s)
    end in
  match s1 with
  | [] => None
  | d :: t =>
      let int_part :=
        if d =? 48 then Some ([d], t)
        else if is_digit d then let (ds, r) := span_digits t in Some (d :: ds, r)
        else None in
      match int_part with
      | None => None
      | Some (ip, r1) =>
          let '(frac, r2) :=
            match r1 with
            | p :: f :: _ =>
                if (p =? 46) && is_digit f
                then let (fs, r) := span_digits (tl r1) in (p :: fs, r)
                else ([], r1)
            | _ => ([], r1)
            end in
          let '(expo, r3) :=
            match r2 with
            | e :: r =>
                if (e =? 101) || (e =? 69) then
                  let '(sg, r') :=
                    match r with
                    | g :: r'' => if (g =? 45) || (g =? 43) then ([g], r'') else ([], r)
                    | [] => ([], r)
                    end in
                  let (es, r4) := span_digits r' in
                  match es with
                  | [] => ([], r2)
                  | _ :: _ => (e :: sg ++ es, r4)
                  end
                else ([], r2)
            | [] => ([], r2)
            end in
          match frac, expo with
          | [], [] =>
              let v := digits_value ip 0 in
              Some (JInt (match sign with [] => v | _ => (- v)%Z end), r3)
          | _, _ => Some (JFloat (sign ++ ip ++ frac ++ expo), r3)
          end
      end
  end.

(** A keyword at the head of the input. *)
Definition keyword (k : string) (v : json) (s : str) : option (json * str) :=
  if startswith (lit k) s
  then Some (v, skipn (List.length (lit k)) s)
  else None.

Definition first_of {A} (a b : option A) : option A :=
  match a with Some _ => a | None => b end.

Definition scan_atom (s : str) : option (json * str) :=
  first_of (keyword "null" JNull s)
 (first_of (keyword "true" (JBool true) s)
 (first_of (keyword "false" (JBool false) s)
 (first_of (keyword "NaN" (JFloat (lit "NaN")) s)
 (first_of (keyword "Infinity" (JFloat (lit "Infinity")) s)
 (first_of (keyword "-Infinity" (JFloat (lit "-Infinity")) s)
           (scan_number s)))))).

Inductive scan (A : Type) : Type :=
| Scanned (v : A) (rest : str)
| Invalid
| OutOfFuel.
Arguments Scanned {A} v rest.
Arguments Invalid {A}.
Arguments OutOfFuel {A}.

(** [scan_once] reads one value; [parse_members] and [parse_items] are the
    loops of the object and array readers, entered after the opening
    bracket, the white space behind it and the test for an empty body. *)
Fixpoint scan_once (fuel : nat) (s : str) {struct fuel} : scan json :=
  match fuel with
  | O => OutOfFuel
  | S fuel' =>
      match s with
      | [] => Invalid
      | c :: t =>
          if c =? DQUOTE then
            match scanstring t with
            | Some (k, rest) => Scanned (JString k) rest
            | None => Invalid
            end
          else if c =? LBRACE then
            match skip_ws t with
            | [] => Invalid
            | c' :: t' =>
                if c' =? RBRACE then Scanned (JObject []) t'
                else parse_members fuel' (c' :: t') []
            end
          else if c =? LBRACKET then
            match skip_ws t with
            | [] => Invalid
            | c' :: t' =>
                if c' =? RBRACKET then Scanned (JArray []) t'
                else parse_items fuel' (c' :: t') []
            end
          else
            match scan_atom s with
            | Some (v, rest) => Scanned v rest
            | None => Invalid
            end
      end
  end

with parse_members (fuel : nat) (s : str) (acc : list (str * json))
  {struct fuel} : scan json :=
  match fuel with
  | O => OutOfFuel
  | S fuel' =>
      match s with
      | [] => Invalid
      | q :: t =>
          if q =? DQUOTE then
            match scanstring t with
            | None => Invalid
            | Some (key, r1) =>
                match skip_ws r1 with
                | [] => Invalid
                | colon :: r2 =>
                    if colon =? 58 then
                      match scan_once fuel' (skip_ws r2) with
                      | Scanned v r3 =>
                          match skip_ws r3 with
                          | [] => Invalid
                          | d :: r4 =>
                              if d =? RBRACE
                              then Scanned (JObject (dict_set key v acc)) r4
                              else if d =? COMMA
                              then parse_members fuel' (skip_ws r4) (dict_set key v acc)
                              else Invalid
                          end
                      | Invalid => Invalid
                      | OutOfFuel => OutOfFuel
                      end
                    else Invalid
                end
            end
          else Invalid
      end
  end

with parse_items (fuel : nat) (s : str) (acc : list json)
  {struct fuel} : scan json :=
  match fuel with
  | O => OutOfFuel
  | S fuel' =>
      match scan_once fuel' s with
      | Scanned v r1 =>
          match skip_ws r1 with
          | [] => Invalid
          | d :: r2 =>
              if d =? RBRACKET then Scanned (JArray (acc ++ [v])) r2
              else if d =? COMMA then parse_items fuel' (skip_ws r2) (acc ++ [v])
              else Invalid
          end
      | Invalid => Invalid
      | OutOfFuel => OutOfFuel
      end
  end.

(** [json.loads(s)]: leading white space, one value, trailing white space,
    end of input.  The fuel is never used up ([JsonFacts.json_loads_fuel]),
    so [OutOfFuel] is not an answer the decoder gives. *)
Definition json_loads (s : str) : result json :=
  match scan_once (2 * List.length s + 2) (skip_ws s) with
  | Scanned v rest =>
      match skip_ws rest with
      | [] => Return v
      | _ :: _ => Raise JSONDecodeError
      end
  | Invalid => Raise JSONDecodeError
  | OutOfFuel => Raise JSONDecodeError
  end.

End Json.
Import Json.

(** ** [extract_json_object] *)

Module Extractor.

(** [\s*[}\]]] anchored at the head of [s]: the text matched (group 1 of
    the source's pattern) and what follows it. *)
Fixpoint match_closer (s : str) : option (str * str) :=
  match s with
  | [] => None
  | c :: t =>
      if isspace c then
        match match_closer t with
        | Some (g, rest) => Some (c :: g, rest)
        | None => None
        end
      else if (c =? RBRACE) || (c =? RBRACKET) then Some ([c], t)
      else None
  end.

(** [re.sub(r",(\s*[}\]])", r"\1", s)]: the matches are taken from left to
    right without overlap; each is replaced by its group 1 and the scan
    resumes behind it.  [fuel] bounds the scan; [length s] is enough
    ([ExtractorFacts.re_sub_trailing_commas_drop]). *)
Fixpoint re_sub_scan (fuel : nat) (s : str) : str :=
  match fuel with
  | O => s
  | S fuel' =>
      match s with
      | [] => []
      | c :: t =>
          if c =? COMMA then
            match match_closer t with
            | Some (g, rest) => g ++ re_sub_scan fuel' rest
            | None => c :: re_sub_scan fuel' t
            end
          else c :: re_sub_scan fuel' t
      end
  end.

Definition re_sub_trailing_commas (s : str) : str :=
  re_sub_scan (List.length s) s.

Definition replace_smart_quotes (s : str) : str :=
  replace RIGHT_SINGLE_QUOTATION_MARK SQUOTE
    (replace RIGHT_DOUBLE_QUOTATION_MARK DQUOTE
       (replace LEFT_DOUBLE_QUOTATION_MARK DQUOTE s)).

Definition is_empty (s : str) : bool :=
  match s with [] => true | _ :: _ => false end.

Definition extract_json_object (text : str) : result json :=
  if is_empty text then Raise (ValueError (lit "Empty model output"))
  else
    let start := find LBRACE text in
    let end_ := rfind RBRACE text in
    if (start =? -1)%Z || (end_ =? -1)%Z || (end_ <=? start)%Z then
      Raise (ValueError (lit "No JSON object found in output: " ++ prefix 500 text))
    else
      let candidate := strip (slice text start (end_ + 1)) in
      let candidate := re_sub_trailing_commas candidate in
      let candidate := replace_smart_quotes candidate in
      json_loads candidate.

End Extractor.
Import Extractor.

(** ** The outside world *)

Module Outside.

Record message : Type := { role : str; content : str }.

(** What [hf_chat] sends: the URL, the bearer token of the [Authorization]
    header, and the fields of the JSON payload. *)
Record request : Type := {
  url : str;
  bearer : str;
  model : str;
  messages : list message;
  temperature : Z;
  max_tokens : Z;
  timeout : Z
}.

(** What a request comes to: a well-formed 2xx response with the message
    content of its first choice; an [HTTPError] with its code, reason and
    body ([None] when the body cannot be read or decoded); or any other
    exception ([URLError], a time-out, a response of another shape). *)
Inductive outcome : Type :=
| Completion (reply : str)
| HttpFailure (code : Z) (reason : str) (body : option str)
| OtherFailure (descr : str).

(** [endpoint n r] is the outcome of request [r] when [n] requests were
    sent before it; [random_random n] is the [n]-th value of
    [random.random()]; [reader_pages] holds [page.extract_text()] for each
    page of the PDF read from the bucket. *)
Record Env : Type := {
  HF_API_TOKEN : option str;
  HF_MODEL : option str;
  endpoint : nat -> request -> outcome;
  random_random : nat -> Q;
  reader_pages : list (option str)
}.

(** The body of an object written to the bucket, before [json.dumps] and
    the UTF-8 encoding.  [error] stands for [str(e)]. *)
Inductive payload : Type :=
| ExtractedText (text : str)
| Metadata (source_pdf : str) (pages chars : nat) (note : str)
| Structured (structured : json)
| ErrorReport (source_pdf : str) (error : exn) (hint : str)
    (raw_llm_output_snippet : str).

Record put : Type := {
  Bucket : str;
  Key : str;
  Body : payload;
  ContentType : option str
}.

(** The trace of one invocation, oldest entry first.  Writes to the bucket
    and the PDF reader are taken to succeed: they are collaborators of the
    handler, not part of the extraction logic. *)
Record World : Type := {
  requests : list request;
  sleeps : list Q;
  draws : nat;
  puts : list put
}.

Definition world0 : World :=
  {| requests := []; sleeps := []; draws := 0; puts := [] |}.

Definition send (r : request) (w : World) : World :=
  {| requests := requests w ++ [r]; sleeps := sleeps w;
     draws := draws w; puts := puts w |}.

Definition time_sleep (d : Q) (w : World) : World :=
  {| requests := requests w; sleeps := sleeps w ++ [d];
     draws := draws w; puts := puts w |}.

Definition draw (w : World) : World :=
  {| requests := requests w; sleeps := sleeps w;
     draws := S (draws w); puts := puts w |}.

Definition put_object (p : put) (w : World) : World :=
  {| requests := requests w; sleeps := sleeps w;
     draws := draws w; puts := puts w ++ [p] |}.

End Outside.
Import Outside.

(** ** [call_hf_extract] *)

Module Controller.

Definition retryable (code : Z) : bool :=
  existsb (Z.eqb code) [429; 500; 502; 503; 504]%Z.

Definition max_attempts : Z := 3.
Definition base_delay : Q := 1.

(** [range(lo, hi)]. *)
Definition range (lo hi : Z) : list Z :=
  map (fun i => (lo + Z.of_nat i)%Z) (seq 0 (Z.to_nat (hi - lo))).

Definition or_empty (s : option str) : str :=
  match s with Some x => x | None => [] end.

Definition default_model : str := lit "HuggingFaceTB/SmolLM3-3B:hf-inference".

Definition system_prompt : str :=
  lit "Return ONLY valid JSON. No markdown, no comments, no trailing commas, no extra text.".

Definition user_prompt_head : str := lit "
Return ONLY valid JSON.

Schema:
{
  `document_type`: `resume|invoice|homework|research_paper|other`,
  `title`: null,
  `summary`: ``,
  `key_points`: [],
  `entities`: {
    `people`: [],
    `emails`: [],
    `phone_numbers`: [],
    `organizations`: [],
    `dates`: [],
    `amounts`: [],
    `locations`: []
  },
  `fields`: {
    `resume`: {
      `candidate_name`: null,
      `skills`: [],
      `education`: [],
      `experience`: []
    },
    `invoice`: {
      `invoice_number`: null,
      `vendor`: null,
      `invoice_date`: null,
      `total_amount`: null
    }
  }
}

Document text:
".

Definition base_messages (text : str) : list message :=
  [ {| role := lit "system"; content := system_prompt |};
    {| role := lit "user";
       content := strip (user_prompt_head ++ text ++ [NEWLINE]) |} ].

Definition repair_messages (raw_output : str) : list message :=
  [ {| role := lit "system";
       content := lit "You are a JSON repair bot. Return ONLY valid JSON. No markdown, no extra text." |};
    {| role := lit "user";
       content := lit "Fix this to be valid JSON and return ONLY the JSON:" ++ [NEWLINE; NEWLINE] ++ raw_output |} ].

Section WithEnv.

Variable env : Env.
(** The two locals read from the environment before the loop. *)
Variable token : str.
Variable model_name : str.

Definition build_request (msgs : list message) : request :=
  {| url := lit "https://router.huggingface.co/v1/chat/completions";
     bearer := token;
     model := model_name;
     messages := msgs;
     temperature := 0;
     max_tokens := 800;
     timeout := 60 |}.

(** The inner function [hf_chat]. *)
Definition hf_chat (msgs : list message) (w : World) : result str * World :=
  let req := build_request msgs in
  let w' := send req w in
  match endpoint env (List.length (requests w)) req with
  | Completion reply => (Return (strip reply), w')
  | HttpFailure code reason body => (Raise (HTTPError code reason (or_empty body)), w')
  | OtherFailure descr => (Raise (OtherException descr), w')
  end.

(** [sleep_s = base_delay * (2 ** (attempt - 1)) + random.random()], then
    [time.sleep(sleep_s)]. *)
Definition sleep_s (attempt : Z) (w : World) : Q :=
  (base_delay * inject_Z (2 ^ (attempt - 1)) + random_random env (draws w))%Q.

Definition backoff (attempt : Z) (w : World) : World :=
  time_sleep (sleep_s attempt w) (draw w).

(** How one pass through the body of the [for] loop ends: by [return], by
    an exception that leaves the function, or by reaching the next
    iteration with a new [last_err]. *)
Inductive pass : Type :=
| Returned (structured : json) (raw : str)
| Raised (e : exn)
| Continue (err : last_err).

(** The handler [except Exception as e]: one repair request, and on any
    failure of it the back-off sleep. *)
Definition repair_pass (attempt : Z) (raw_output : str) (e : exn) (w : World)
  : pass * World :=
  match hf_chat (repair_messages raw_output) w with
  | (Return repaired, w1) =>
      match extract_json_object repaired with
      | Return structured => (Returned structured repaired, w1)
      | Raise e2 => (Continue (ParseRepairDetail e e2), backoff attempt w1)
      end
  | (Raise e2, w1) => (Continue (ParseRepairDetail e e2), backoff attempt w1)
  end.

(** The body of the loop.  [raw_output] is the empty string until the
    primary request has returned. *)
Definition attempt_body (msgs : list message) (attempt : Z) (w : World)
  : pass * World :=
  match hf_chat msgs w with
  | (Return raw_output, w1) =>
      match extract_json_object raw_output with
      | Return structured => (Returned structured raw_output, w1)
      | Raise e => repair_pass attempt raw_output e w1
      end
  | (Raise (HTTPError code reason body), w1) =>
      if retryable code
      then (Continue (HttpDetail code reason body), backoff attempt w1)
      else (Raised (HTTPError code reason body), w1)
  | (Raise e, w1) => repair_pass attempt [] e w1
  end.

(** [for attempt in todo: ...] followed by the final [raise]. *)
Fixpoint attempts (msgs : list message) (todo : list Z) (err : last_err)
  (w : World) : result (json * str) * World :=
  match todo with
  | [] => (Raise (RuntimeError (lit "HF call failed after retries: ") err), w)
  | attempt :: rest =>
      match attempt_body msgs attempt w with
      | (Returned structured raw, w1) => (Return (structured, raw), w1)
      | (Raised e, w1) => (Raise e, w1)
      | (Continue err', w1) => attempts msgs rest err' w1
      end
  end.

End WithEnv.

Definition call_hf_extract (env : Env) (text : str) (w : World)
  : result (json * str) * World :=
  let token := HF_API_TOKEN env in
  let model_name := match HF_MODEL env with Some m => m | None => default_model end in
  if is_empty (or_empty token) then
    (Raise (RuntimeError (lit "HF_API_TOKEN is missing in environment variables") NoError), w)
  else
    let text := prefix 8000 text in
    attempts env (or_empty token) model_name (base_messages text)
      (range 1 (max_attempts + 1)) NoError w.

End Controller.
Import Controller.

(** ** [lambda_handler] *)

Module Driver.

(** The S3 record of the event: the bucket name and the object key after
    [urllib.parse.unquote_plus]. *)
Record event : Type := { bucket_name : str; object_key : str }.

Record response : Type := { statusCode : Z; body : str }.

(** [str.lower] on the ASCII letters.  Other code points are left alone;
    none of them lowers to a character of [.pdf], so the suffix test of the
    handler is not affected. *)
Definition lower (s : str) : str :=
  map (fun c => if (65 <=? c) && (c <=? 90) then c + 32 else c) s.

(** [key.split("/")[-1]]. *)
Definition last_segment (key : str) : str :=
  let i := rfind 47 key in
  if (i =? -1)%Z then key else skipn (Z.to_nat (i + 1)) key.

(** [name.rsplit(".", 1)[0]]. *)
Definition stem (name : str) : str :=
  let i := rfind 46 name in
  if (i =? -1)%Z then name else firstn (Z.to_nat i) name.

(** The loop over [reader.pages]: [t = page.extract_text() or ""], kept
    when [t.strip()] is not empty. *)
Definition pages_text (pages : list (option str)) : list str :=
  filter (fun t => negb (is_empty (strip t))) (map or_empty pages).

Definition s3_uri (bucket key : str) : str :=
  lit "s3://" ++ bucket ++ lit "/" ++ key.

Definition note_text : str :=
  lit "Text extracted using pypdf (best for text-based PDFs). Scanned PDFs may be empty.".

Definition hint_text : str :=
  lit "If HF returns 429/503, it may be busy. Try later or use a smaller PDF.".

Definition application_json : option str := Some (lit "application/json").

Definition respond (b : string) : response :=
  {| statusCode := 200; body := lit b |}.

Definition lambda_handler (env : Env) (ev : event) (w : World)
  : response * World :=
  let bucket := bucket_name ev in
  let key := object_key ev in
  if negb (startswith (lit "raw/") key) || negb (endswith (lit ".pdf") (lower key))
  then (respond "skipped", w)
  else
    let extracted_text := join [NEWLINE; NEWLINE] (pages_text (reader_pages env)) in
    let base_name := stem (last_segment key) in
    let text_key := lit "processed/" ++ base_name ++ lit ".txt" in
    let meta_key := lit "processed/" ++ base_name ++ lit ".json" in
    let structured_key := lit "processed/" ++ base_name ++ lit ".structured.json" in
    let err_key := lit "processed/" ++ base_name ++ lit ".structured.error.json" in
    let w :=
      put_object {| Bucket := bucket; Key := text_key;
                    Body := ExtractedText extracted_text;
                    ContentType := None |} w in
    let w :=
      put_object {| Bucket := bucket; Key := meta_key;
                    Body := Metadata (s3_uri bucket key)
                              (List.length (reader_pages env))
                              (List.length extracted_text) note_text;
                    ContentType := application_json |} w in
    if (List.length (strip extracted_text) =? 0)%nat
    then (respond "no_text", w)
    else
      let raw_llm_output : option str := None in
      match call_hf_extract env extracted_text w with
      | (Return (structured, _), w) =>
          (respond "processed_with_llm",
           put_object {| Bucket := bucket; Key := structured_key;
                         Body := Structured structured;
                         ContentType := application_json |} w)
      | (Raise e, w) =>
          (respond "processed_but_llm_failed",
           put_object {| Bucket := bucket; Key := err_key;
                         Body := ErrorReport (s3_uri bucket key) e hint_text
                                   (prefix 2000 (or_empty raw_llm_output));
                         ContentType := application_json |} w)
      end.

End Driver.
Import Driver.


(** ** The dashboard, [ui/app.py]

    The functions of the Streamlit script that decide something and the
    status panel of its page.  The bucket is read through [head_object]
    and the paginator, which are inputs here. *)

Module Dashboard.

Definition RAW_PREFIX : str := lit "raw/".
Definition PROCESSED_PREFIX : str := lit "processed/".

(** One entry of [keys]: [(obj["Key"], obj["LastModified"], obj["Size"])],
    the time stamp as a number. *)
Record listed : Type := {
  listed_key : str;
  last_modified : Z;
  listed_size : Z
}.

(** [keys.sort(key=lambda x: x[1], reverse=True)].  The sort of Python is
    stable, also with [reverse=True]: entries with equal time stamps keep
    the order they had.  That fixes the result, which is computed here by
    insertion from the right. *)
Fixpoint insert_newest (x : listed) (l : list listed) : list listed :=
  match l with
  | [] => [x]
  | y :: l' =>
      if (last_modified x <? last_modified y)%Z
      then y :: insert_newest x l'
      else x :: l
  end.

Definition sort_newest_first (l : list listed) : list listed :=
  fold_right insert_newest [] l.

(** [list_objects]: the pages of the paginator, each with its
    [p.get("Contents", [])]. *)
Definition list_objects (pages : list (option (list listed))) : list listed :=
  let keys :=
    List.concat (map (fun p => match p with Some c => c | None => [] end) pages) in
  sort_newest_first keys.


Fixpoint uint_chars (u : Decimal.uint) : str :=
  match u with
  | Decimal.Nil => []
  | Decimal.D0 u' => 48 :: uint_chars u'
  | Decimal.D1 u' => 49 :: uint_chars u'
  | Decimal.D2 u' => 50 :: uint_chars u'
  | Decimal.D3 u' => 51 :: uint_chars u'
  | Decimal.D4 u' => 52 :: uint_chars u'
  | Decimal.D5 u' => 53 :: uint_chars u'
  | Decimal.D6 u' => 54 :: uint_chars u'
  | Decimal.D7 u' => 55 :: uint_chars u'
  | Decimal.D8 u' => 56 :: uint_chars u'
  | Decimal.D9 u' => 57 :: uint_chars u'
  end.

(** [str(n)] for an integer [n]. *)
Definition str_of_int (n : Z) : str :=
  match Z.to_int n with
  | Decimal.Pos u => uint_chars u
  | Decimal.Neg u => 45 :: uint_chars u
  end.

(** What [upload_pdf] hands to [s3.put_object]. *)
Record upload : Type := {
  upload_bucket : str;
  upload_key : str;
  upload_body : list N
}.

(** [upload_pdf]; [now] is [int(time.time())]. *)
Definition upload_pdf (bucket_name : str) (now : Z)
  (file_bytes : list N) (filename : str) : str * upload :=
  let safe_name := replace 32 95 filename in
  let s3_key := RAW_PREFIX ++ str_of_int now ++ lit "_" ++ safe_name in
  (s3_key,
   {| upload_bucket := bucket_name; upload_key := s3_key;
      upload_body := file_bytes |}).

Definition base_from_raw_key (raw_key : str) : str :=
  let name := last_segment raw_key in
  let base := stem name in
  base.

(** The four keys of the status panel, in the order it shows them. *)
Definition expected_outputs (raw_key_input : str) : list str :=
  let base := base_from_raw_key raw_key_input in
  [ PROCESSED_PREFIX ++ base ++ lit ".txt";
    PROCESSED_PREFIX ++ base ++ lit ".json";
    PROCESSED_PREFIX ++ base ++ lit ".structured.json";
    PROCESSED_PREFIX ++ base ++ lit ".structured.error.json" ].




End Dashboard.
Import Dashboard.

(** * Vocabulary of the statements *)

Module Vocabulary.

(** Where the pattern of the trailing-comma repair matches. *)
Fixpoint has_trailing_comma (s : str) : bool :=
  match s with
  | [] => false
  | c :: t =>
      ((c =? COMMA) && match match_closer t with Some _ => true | None => false end)
      || has_trailing_comma t
  end.

(** The comma repair as one pass over the text: a comma goes when the
    pattern matches behind it. *)
Fixpoint drop_trailing_commas (s : str) : str :=
  match s with
  | [] => []
  | c :: t =>
      if (c =? COMMA) && match match_closer t with Some _ => true | None => false end
      then drop_trailing_commas t
      else c :: drop_trailing_commas t
  end.

Definition is_smart_quote (c : char) : bool :=
  mem_char c [LEFT_DOUBLE_QUOTATION_MARK; RIGHT_DOUBLE_QUOTATION_MARK;
              RIGHT_SINGLE_QUOTATION_MARK].


(** The two [ValueError]s [extract_json_object] raises itself. *)
Definition EmptyModelOutput : exn := ValueError (lit "Empty model output").

Definition NoJsonFound (text : str) : exn :=
  ValueError (lit "No JSON object found in output: " ++ prefix 500 text).

(** No opening brace, no closing brace, or the last closing brace before
    the first opening one. *)
Definition no_object_span (text : str) : Prop :=
  find LBRACE text = (-1)%Z \/ rfind RBRACE text = (-1)%Z \/
  (rfind RBRACE text < find LBRACE text)%Z.

(** The three characters replaced, and the left single quotation mark,
    which is not among them. *)
Definition normalize_quote (c : char) : char :=
  if c =? LEFT_DOUBLE_QUOTATION_MARK then DQUOTE
  else if c =? RIGHT_DOUBLE_QUOTATION_MARK then DQUOTE
  else if c =? RIGHT_SINGLE_QUOTATION_MARK then SQUOTE
  else c.

(** One pass of the retry loop on the wire: the primary request, then at
    most one repair request. *)
Definition pass_shape (token model_name : str) (msgs : list message)
  (g : list request) : Prop :=
  g = [build_request token model_name msgs] \/
  exists raw, g = [build_request token model_name msgs;
                   build_request token model_name (repair_messages raw)].

(** The delays of passes that all end in a back-off, the first of them
    using the [k]-th random draw. *)
Fixpoint backoff_delays (env : Env) (todo : list Z) (k : nat) : list Q :=
  match todo with
  | [] => []
  | attempt :: rest =>
      (base_delay * inject_Z (2 ^ (attempt - 1)) + random_random env k)%Q
      :: backoff_delays env rest (S k)
  end.

Definition token_of (env : Env) : str := or_empty (HF_API_TOKEN env).

Definition model_of (env : Env) : str :=
  match HF_MODEL env with Some m => m | None => default_model end.

(** The primary request of [call_hf_extract env text]. *)
Definition primary_request (env : Env) (text : str) : request :=
  build_request (token_of env) (model_of env) (base_messages (prefix 8000 text)).

Definition repair_request (env : Env) (raw_output : str) : request :=
  build_request (token_of env) (model_of env) (repair_messages raw_output).

Definition retries_exhausted (err : last_err) : exn :=
  RuntimeError (lit "HF call failed after retries: ") err.

(** What one pass of the loop leaves behind, by the way it ends. *)
Definition pass_effect (env : Env) (token model_name : str)
  (msgs : list message) (attempt : Z) (w : World) (p : pass) (w' : World)
  : Prop :=
  puts w' = puts w /\
  (exists g, pass_shape token model_name msgs g /\ requests w' = requests w ++ g) /\
  match p with
  | Continue _ =>
      sleeps w' = sleeps w ++
        [(base_delay * inject_Z (2 ^ (attempt - 1)) + random_random env (draws w))%Q]
      /\ draws w' = S (draws w)
  | Raised e =>
      sleeps w' = sleeps w /\ draws w' = draws w /\
      exists code reason body, e = HTTPError code reason body /\ retryable code = false
  | Returned _ _ => sleeps w' = sleeps w /\ draws w' = draws w
  end.

(** The loop and its body as [call_hf_extract env text] runs them. *)
Definition loop_of (env : Env) (text : str) :=
  attempts env (token_of env) (model_of env) (base_messages (prefix 8000 text)).

Definition body_of (env : Env) (text : str) :=
  attempt_body env (token_of env) (model_of env) (base_messages (prefix 8000 text)).

Definition group_of (env : Env) (text : str) :=
  pass_shape (token_of env) (model_of env) (base_messages (prefix 8000 text)).

(** A stub environment: the [n]-th request gets [script n], every random
    draw is one half, the token is set and the model is the default. *)
Definition stub_env (script : nat -> outcome) (pages : list (option str)) : Env :=
  {| HF_API_TOKEN := Some (lit "hf_secret");
     HF_MODEL := None;
     endpoint := fun n _ => script n;
     random_random := fun _ => (1 # 2)%Q;
     reader_pages := pages |}.

Definition service_unavailable : outcome :=
  HttpFailure 503 (lit "Service Unavailable") (Some (lit "busy")).

Definition bad_request : outcome :=
  HttpFailure 400 (lit "Bad Request") (Some (lit "no")).

Definition valid_reply : outcome := Completion (lit "{`document_type`: `other`}").

Definition prose_reply : outcome := Completion (lit "I cannot answer that.").

Definition valid_object : json :=
  JObject [(lit "document_type", JString (lit "other"))].

(** Endpoint scripts of the scenarios. *)
Definition script_503_503_ok (n : nat) : outcome :=
  match n with
  | O | S O => service_unavailable
  | _ => valid_reply
  end.

Definition script_400 (n : nat) : outcome := bad_request.

Definition script_timeout_then_ok (n : nat) : outcome :=
  match n with
  | O => OtherFailure (lit "<urlopen error timed out>")
  | _ => valid_reply
  end.

Definition script_prose (n : nat) : outcome := prose_reply.

Definition sample_text : str := lit "Invoice 42 from ACME".

(** The handler goes past its first test for keys under [raw/] that end in
    [.pdf], whatever the case of the letters. *)
Definition is_target (key : str) : bool :=
  startswith (lit "raw/") key && endswith (lit ".pdf") (lower key).

Definition extracted_text_of (env : Env) : str :=
  join [NEWLINE; NEWLINE] (pages_text (reader_pages env)).

Definition base_name_of (ev : event) : str := stem (last_segment (object_key ev)).

(** The four objects the handler may write. *)
Definition text_put (env : Env) (ev : event) : put :=
  {| Bucket := bucket_name ev;
     Key := lit "processed/" ++ base_name_of ev ++ lit ".txt";
     Body := ExtractedText (extracted_text_of env);
     ContentType := None |}.

Definition meta_put (env : Env) (ev : event) : put :=
  {| Bucket := bucket_name ev;
     Key := lit "processed/" ++ base_name_of ev ++ lit ".json";
     Body := Metadata (s3_uri (bucket_name ev) (object_key ev))
               (List.length (reader_pages env))
               (List.length (extracted_text_of env)) note_text;
     ContentType := application_json |}.

Definition structured_put (ev : event) (structured : json) : put :=
  {| Bucket := bucket_name ev;
     Key := lit "processed/" ++ base_name_of ev ++ lit ".structured.json";
     Body := Structured structured;
     ContentType := application_json |}.

Definition error_put (ev : event) (e : exn) (snippet : str) : put :=
  {| Bucket := bucket_name ev;
     Key := lit "processed/" ++ base_name_of ev ++ lit ".structured.error.json";
     Body := ErrorReport (s3_uri (bucket_name ev) (object_key ev)) e hint_text snippet;
     ContentType := application_json |}.




Definition sample_event : event :=
  {| bucket_name := lit "docs"; object_key := lit "raw/2024/Invoice.v2.PDF" |}.

Definition sample_pages : list (option str) :=
  [Some (lit "Page one"); Some []; Some (lit "Page three")].

Definition script_ok (n : nat) : outcome := valid_reply.

(** ** Vocabulary of the further properties *)

Definition not_comma (c : char) : bool := negb (c =? COMMA).

(** The sum of a list of delays. *)
Definition total (ds : list Q) : Q := fold_right Qplus 0%Q ds.

Definition missing_token : exn :=
  RuntimeError (lit "HF_API_TOKEN is missing in environment variables") NoError.

Definition well_formed_request (env : Env) (text : str) (r : request) : Prop :=
  url r = lit "https://router.huggingface.co/v1/chat/completions" /\
  bearer r = token_of env /\ model r = model_of env /\
  temperature r = 0%Z /\ max_tokens r = 800%Z /\ timeout r = 60%Z /\
  (messages r = base_messages (prefix 8000 text) \/
   exists raw_output, messages r = repair_messages raw_output).

(** A page without text worth keeping: no text at all, or white space
    only. *)
Definition blank_page (p : option str) : bool := is_empty (strip (or_empty p)).

(** What [head_object] answers once the handler has run: the objects that
    were in the bucket before, and those the handler wrote. *)
Definition written (w : World) (bucket key : str) : bool :=
  existsb (fun p => str_eqb (Bucket p) bucket && str_eqb (Key p) key) (puts w).


Definition is_pdf_name (name : str) : bool := endswith (lit ".pdf") (lower name).

Definition newer_or_equal (a b : listed) : Prop :=
  (last_modified b <= last_modified a)%Z.

End Vocabulary.
Import Vocabulary.

(** * Properties of the JSON scanner *)

Module JsonFacts.

Lemma skip_ws_length (s : str) : (List.length (skip_ws s) <= List.length s)%nat.
Proof.
  induction s as [|c t IH]; cbn [skip_ws List.length]; [lia|].
  destruct (is_ws c); cbn [List.length]; lia.
Qed.

Lemma push_some c r k rest :
  push c r = Some (k, rest) -> exists k', r = Some (k', rest).
Proof.
  destruct r as [[k' r']|]; cbn; intros H; inversion H; eauto.
Qed.

Lemma scanstring_length (n : nat) :
  forall s k r, (List.length s <= n)%nat ->
  scanstring s = Some (k, r) -> (List.length r < List.length s)%nat.
Proof.
  induction n as [|n IH]; intros s k r Hl H.
  - destruct s; [discriminate H|cbn in Hl; lia].
  - assert (Hrec : forall c x k' ,
              (List.length x <= n)%nat ->
              push c (scanstring x) = Some (k', r) ->
              (List.length r < List.length x)%nat).
    { intros c x k' Hx Hp. apply push_some in Hp. destruct Hp as [k'' Hp].
      now apply (IH _ _ _ Hx Hp). }
    destruct s as [|c t]; [discriminate H|].
    cbn [scanstring] in H. cbn [List.length] in *.
    destruct (c =? 34); [inversion H; subst; lia|].
    destruct (c =? 92).
    + destruct t as [|e t1]; [discriminate H|]. cbn [List.length] in *.
      destruct (e =? 117).
      * destruct t1 as [|h1 [|h2 [|h3 [|h4 t2]]]]; try discriminate H.
        cbn [List.length] in *.
        destruct (hex4 h1 h2 h3 h4) as [u|]; [|discriminate H].
        destruct (is_high_surrogate u).
        -- destruct t2 as [|b [|u' [|g1 [|g2 [|g3 [|g4 t3]]]]]];
             try (apply Hrec in H; cbn [List.length] in *; lia).
           destruct ((b =? 92) && (u' =? 117));
             [|apply Hrec in H; cbn [List.length] in *; lia].
           destruct (hex4 g1 g2 g3 g4) as [u2|]; [|discriminate H].
           destruct (is_low_surrogate u2);
             apply Hrec in H; cbn [List.length] in *; lia.
        -- apply Hrec in H; cbn [List.length] in *; lia.
      * destruct (unescape e); [|discriminate H].
        apply Hrec in H; cbn [List.length] in *; lia.
    + destruct (c <? 32); [discriminate H|].
      apply Hrec in H; cbn [List.length] in *; lia.
Qed.

Lemma span_digits_length (s : str) :
  (List.length (snd (span_digits s)) <= List.length s)%nat.
Proof.
  induction s as [|c t IH]; cbn [span_digits]; [cbn; lia|].
  destruct (is_digit c); [|cbn; lia].
  destruct (span_digits t) as [ds r]. cbn [snd List.length] in *. lia.
Qed.

Lemma scan_number_length (s : str) v r :
  scan_number s = Some (v, r) -> (List.length r < List.length s)%nat.
Proof.
  unfold scan_number. intros H.
  set (sg := match s with
             | c :: t => if c =? 45 then ([c], t) else ([], s)
             | [] => ([], s)
             end) in H.
  assert (Hs1 : (List.length (snd sg) <= List.length s)%nat).
  { subst sg. destruct s as [|c t]; [cbn; lia|].
    destruct (c =? 45); cbn; lia. }
  destruct sg as [sign s1]. cbn [snd] in Hs1.
  destruct s1 as [|d t]; [discriminate H|].
  cbn [List.length] in Hs1.
  set (ip := if d =? 48 then Some ([d], t)
             else if is_digit d
                  then let (ds, r0) := span_digits t in Some (d :: ds, r0)
                  else None) in H.
  assert (Hip : forall i r1, ip = Some (i, r1) ->
                  (List.length r1 <= List.length t)%nat).
  { subst ip. intros i r1 E. destruct (d =? 48); [inversion E; lia|].
    destruct (is_digit d); [|discriminate E].
    pose proof (span_digits_length t) as Hl.
    destruct (span_digits t) as [ds r0]. inversion E; subst. exact Hl. }
  destruct ip as [[i r1]|]; [|discriminate H].
  specialize (Hip _ _ eq_refl).
  set (fr := match r1 with
             | p :: f :: _ =>
                 if (p =? 46) && is_digit f
                 then let (fs, r0) := span_digits (tl r1) in (p :: fs, r0)
                 else ([], r1)
             | _ => ([], r1)
             end) in H.
  assert (Hfr : (List.length (snd fr) <= List.length r1)%nat).
  { subst fr. destruct r1 as [|p [|f r1']]; try (cbn; lia).
    destruct ((p =? 46) && is_digit f); [|cbn; lia].
    pose proof (span_digits_length (tl (p :: f :: r1'))) as Hl.
    destruct (span_digits (tl (p :: f :: r1'))) as [fs r0].
    cbn [snd tl List.length] in *. lia. }
  destruct fr as [frac r2]. cbn [snd] in Hfr.
  set (ex := match r2 with
             | e :: r0 =>
                 if (e =? 101) || (e =? 69) then
                   let '(sg, r') :=
                     match r0 with
                     | g :: r'' => if (g =? 45) || (g =? 43) then ([g], r'') else ([], r0)
                     | [] => ([], r0)
                     end in
                   let (es, r4) := span_digits r' in
                   match es with
                   | [] => ([], r2)
                   | _ :: _ => (e :: sg ++ es, r4)
                   end
                 else ([], r2)
             | [] => ([], r2)
             end) in H.
  assert (Hex : (List.length (snd ex) <= List.length r2)%nat).
  { subst ex. destruct r2 as [|e r0]; [cbn; lia|].
    destruct ((e =? 101) || (e =? 69)); [|cbn; lia].
    set (q := match r0 with
              | g :: r'' => if (g =? 45) || (g =? 43) then ([g], r'') else ([], r0)
              | [] => ([], r0)
              end).
    assert (Hq : (List.length (snd q) <= List.length r0)%nat).
    { subst q. destruct r0 as [|g r'']; [cbn; lia|].
      destruct ((g =? 45) || (g =? 43)); cbn; lia. }
    destruct q as [sg' r']. cbn [snd] in Hq.
    pose proof (span_digits_length r') as Hl.
    destruct (span_digits r') as [es r4]. cbn [snd] in Hl.
    destruct es; cbn [snd List.length]; lia. }
  destruct ex as [expo r3]. cbn [snd] in Hex.
  destruct frac, expo; inversion H; subst; lia.
Qed.

Lemma startswith_length (p s : str) :
  startswith p s = true -> (List.length p <= List.length s)%nat.
Proof.
  revert s. induction p as [|a p IH]; intros s H; [cbn; lia|].
  destruct s as [|b s]; [discriminate H|].
  cbn [startswith] in H. apply andb_prop in H. destruct H as [_ H].
  apply IH in H. cbn [List.length]. lia.
Qed.

Lemma keyword_length (k : string) (v : json) (s : str) v' r :
  (0 < List.length (lit k))%nat ->
  keyword k v s = Some (v', r) -> (List.length r < List.length s)%nat.
Proof.
  intros Hk H. unfold keyword in H.
  destruct (startswith (lit k) s) eqn:E; [|discriminate H].
  apply startswith_length in E. inversion H; subst.
  rewrite length_skipn. lia.
Qed.

Lemma scan_atom_length (s : str) v r :
  scan_atom s = Some (v, r) -> (List.length r < List.length s)%nat.
Proof.
  unfold scan_atom, first_of. intros H.
  repeat match type of H with
  | match keyword ?k ?x s with _ => _ end = _ =>
      let E := fresh "E" in
      destruct (keyword k x s) as [[? ?]|] eqn:E;
      [inversion H; subst;
       apply (keyword_length k x s _ _) in E; [exact E|cbn; lia]|]
  end.
  now apply scan_number_length in H.
Qed.

Lemma scan_rest_shorter (n : nat) :
  (forall s v r, scan_once n s = Scanned v r ->
     (List.length r < List.length s)%nat) /\
  (forall s acc v r, parse_members n s acc = Scanned v r ->
     (List.length r < List.length s)%nat) /\
  (forall s acc v r, parse_items n s acc = Scanned v r ->
     (List.length r < List.length s)%nat).
Proof.
  induction n as [|n (IH1 & IH2 & IH3)].
  - repeat split; intros; discriminate.
  - repeat split.
    + intros s v r H. cbn [scan_once] in H.
      destruct s as [|c t]; [discriminate H|]. cbn [List.length].
      destruct (c =? DQUOTE).
      { destruct (scanstring t) as [[k rest]|] eqn:E; [|discriminate H].
        inversion H; subst.
        apply (scanstring_length _ _ _ _ (le_n _)) in E. lia. }
      destruct (c =? LBRACE).
      { pose proof (skip_ws_length t) as Hw.
        destruct (skip_ws t) as [|c' t']; [discriminate H|].
        cbn [List.length] in Hw.
        destruct (c' =? RBRACE); [inversion H; subst; lia|].
        apply IH2 in H. cbn [List.length] in H. lia. }
      destruct (c =? LBRACKET).
      { pose proof (skip_ws_length t) as Hw.
        destruct (skip_ws t) as [|c' t']; [discriminate H|].
        cbn [List.length] in Hw.
        destruct (c' =? RBRACKET); [inversion H; subst; lia|].
        apply IH3 in H. cbn [List.length] in H. lia. }
      destruct (scan_atom (c :: t)) as [[v' rest]|] eqn:E; [|discriminate H].
      inversion H; subst. apply scan_atom_length in E. exact E.
    + intros s acc v r H. cbn [parse_members] in H.
      destruct s as [|q t]; [discriminate H|]. cbn [List.length].
      destruct (q =? DQUOTE); [|discriminate H].
      destruct (scanstring t) as [[key r1]|] eqn:E; [|discriminate H].
      apply (scanstring_length _ _ _ _ (le_n _)) in E.
      pose proof (skip_ws_length r1) as W1.
      destruct (skip_ws r1) as [|colon r2]; [discriminate H|].
      cbn [List.length] in W1.
      destruct (colon =? 58); [|discriminate H].
      pose proof (skip_ws_length r2) as W2.
      destruct (scan_once n (skip_ws r2)) as [v' r3| |] eqn:E3;
        try discriminate H.
      apply IH1 in E3.
      pose proof (skip_ws_length r3) as W3.
      destruct (skip_ws r3) as [|d r4]; [discriminate H|].
      cbn [List.length] in W3.
      destruct (d =? RBRACE); [inversion H; subst; lia|].
      destruct (d =? COMMA); [|discriminate H].
      apply IH2 in H. pose proof (skip_ws_length r4). lia.
    + intros s acc v r H. cbn [parse_items] in H.
      destruct (scan_once n s) as [v' r1| |] eqn:E1; try discriminate H.
      apply IH1 in E1.
      pose proof (skip_ws_length r1) as W1.
      destruct (skip_ws r1) as [|d r2]; [discriminate H|].
      cbn [List.length] in W1.
      destruct (d =? RBRACKET); [inversion H; subst; lia|].
      destruct (d =? COMMA); [|discriminate H].
      apply IH3 in H. pose proof (skip_ws_length r2). lia.
Qed.

Lemma scan_fuel (n : nat) :
  (forall s, (2 * List.length s < n)%nat -> scan_once n s <> OutOfFuel) /\
  (forall s acc, (2 * List.length s < n)%nat ->
     parse_members n s acc <> OutOfFuel) /\
  (forall s acc, (2 * List.length s + 1 < n)%nat ->
     parse_items n s acc <> OutOfFuel).
Proof.
  induction n as [|n (IH1 & IH2 & IH3)].
  - repeat split; intros; lia.
  - repeat split.
    + intros s Hn. cbn [scan_once].
      destruct s as [|c t]; [discriminate|]. cbn [List.length] in Hn.
      destruct (c =? DQUOTE).
      { destruct (scanstring t) as [[k rest]|]; discriminate. }
      destruct (c =? LBRACE).
      { pose proof (skip_ws_length t) as Hw.
        destruct (skip_ws t) as [|c' t']; [discriminate|].
        destruct (c' =? RBRACE); [discriminate|].
        apply IH2. lia. }
      destruct (c =? LBRACKET).
      { pose proof (skip_ws_length t) as Hw.
        destruct (skip_ws t) as [|c' t']; [discriminate|].
        destruct (c' =? RBRACKET); [discriminate|].
        apply IH3. lia. }
      destruct (scan_atom (c :: t)) as [[v' rest]|]; discriminate.
    + intros s acc Hn. cbn [parse_members].
      destruct s as [|q t]; [discriminate|]. cbn [List.length] in Hn.
      destruct (q =? DQUOTE); [|discriminate].
      destruct (scanstring t) as [[key r1]|] eqn:E; [|discriminate].
      apply (scanstring_length _ _ _ _ (le_n _)) in E.
      pose proof (skip_ws_length r1) as W1.
      destruct (skip_ws r1) as [|colon r2]; [discriminate|].
      cbn [List.length] in W1.
      destruct (colon =? 58); [|discriminate].
      pose proof (skip_ws_length r2) as W2.
      destruct (scan_once n (skip_ws r2)) as [v' r3| |] eqn:E3;
        [|discriminate|exfalso; revert E3; apply IH1; lia].
      apply (proj1 (scan_rest_shorter n)) in E3.
      pose proof (skip_ws_length r3) as W3.
      destruct (skip_ws r3) as [|d r4]; [discriminate|].
      cbn [List.length] in W3.
      destruct (d =? RBRACE); [discriminate|].
      destruct (d =? COMMA); [|discriminate].
      apply IH2. pose proof (skip_ws_length r4). lia.
    + intros s acc Hn. cbn [parse_items].
      destruct (scan_once n s) as [v' r1| |] eqn:E1;
        [|discriminate|exfalso; revert E1; apply IH1; lia].
      apply (proj1 (scan_rest_shorter n)) in E1.
      pose proof (skip_ws_length r1) as W1.
      destruct (skip_ws r1) as [|d r2]; [discriminate|].
      cbn [List.length] in W1.
      destruct (d =? RBRACKET); [discriminate|].
      destruct (d =? COMMA); [|discriminate].
      apply IH3. pose proof (skip_ws_length r2). lia.
Qed.

(** The fuel [json_loads] gives the scanner is never used up. *)
Lemma json_loads_fuel (s : str) :
  scan_once (2 * List.length s + 2) (skip_ws s) <> OutOfFuel.
Proof.
  apply (proj1 (scan_fuel _)). pose proof (skip_ws_length s). lia.
Qed.

End JsonFacts.

(** * Properties of [extract_json_object] *)

Module ExtractorFacts.

Lemma find_absent (c : char) (s : str) : ~ In c s -> find c s = (-1)%Z.
Proof.
  induction s as [|x t IH]; intros Hn; [reflexivity|].
  cbn [find]. destruct (N.eqb_spec x c) as [->|_].
  - exfalso. apply Hn. now left.
  - rewrite IH by (intros Hin; apply Hn; now right). reflexivity.
Qed.

Lemma find_lower_bound (c : char) (s : str) : (-1 <= find c s)%Z.
Proof.
  induction s as [|x t IH]; cbn [find]; [lia|].
  destruct (x =? c); [lia|].
  destruct (Z.eqb_spec (find c t) (-1)); lia.
Qed.

Lemma rfind_lower_bound (c : char) (s : str) : (-1 <= rfind c s)%Z.
Proof.
  induction s as [|x t IH]; cbn [rfind]; [lia|].
  destruct (Z.eqb_spec (rfind c t) (-1)); [destruct (x =? c)|]; lia.
Qed.

Lemma find_first (c : char) (pre t : str) :
  ~ In c pre -> find c (pre ++ c :: t) = Z.of_nat (List.length pre).
Proof.
  induction pre as [|x p IH]; intros Hn.
  - cbn [app find List.length]. now rewrite N.eqb_refl.
  - cbn [app find]. destruct (N.eqb_spec x c) as [->|_].
    + exfalso. apply Hn. now left.
    + rewrite IH by (intros Hin; apply Hn; now right).
      destruct (Z.eqb_spec (Z.of_nat (List.length p)) (-1)); [lia|].
      cbn [List.length]. lia.
Qed.

Lemma rfind_absent (c : char) (s : str) : ~ In c s -> rfind c s = (-1)%Z.
Proof.
  induction s as [|x t IH]; intros Hn; [reflexivity|].
  cbn [rfind]. rewrite IH by (intros Hin; apply Hn; now right).
  cbn. destruct (N.eqb_spec x c) as [->|_]; [|reflexivity].
  exfalso. apply Hn. now left.
Qed.

Lemma rfind_last (c : char) (s post : str) :
  ~ In c post -> rfind c (s ++ c :: post) = Z.of_nat (List.length s).
Proof.
  intros Hn. induction s as [|x t IH].
  - cbn [app rfind List.length]. rewrite (rfind_absent _ _ Hn). cbn.
    now rewrite N.eqb_refl.
  - cbn [app rfind]. rewrite IH.
    destruct (Z.eqb_spec (Z.of_nat (List.length t)) (-1)); [lia|].
    cbn [List.length]. lia.
Qed.

Lemma slice_middle (pre mid post : str) :
  slice (pre ++ mid ++ post) (Z.of_nat (List.length pre))
    (Z.of_nat (List.length pre + List.length mid)) = mid.
Proof.
  unfold slice.
  replace (Z.to_nat (Z.of_nat (List.length pre + List.length mid)
                     - Z.of_nat (List.length pre))) with (List.length mid) by lia.
  rewrite Nat2Z.id, skipn_app, skipn_all, Nat.sub_diag.
  cbn [app skipn]. rewrite firstn_app, firstn_all, Nat.sub_diag.
  cbn [firstn]. apply app_nil_r.
Qed.

Lemma lstrip_head (c : char) (t : str) :
  isspace c = false -> lstrip (c :: t) = c :: t.
Proof. intros H. cbn [lstrip]. now rewrite H. Qed.

(** [strip] leaves alone a text whose first and last characters are not
    white space. *)
Lemma strip_tight (a b : char) (mid : str) :
  isspace a = false -> isspace b = false ->
  strip (a :: mid ++ [b]) = a :: mid ++ [b].
Proof.
  intros Ha Hb. unfold strip, rstrip. rewrite (lstrip_head _ _ Ha).
  replace (rev (a :: mid ++ [b])) with (b :: rev (a :: mid)).
  - rewrite (lstrip_head _ _ Hb).
    change (b :: rev (a :: mid)) with ([b] ++ rev (a :: mid)).
    rewrite rev_app_distr, rev_involutive. reflexivity.
  - change (a :: mid ++ [b]) with ((a :: mid) ++ [b]).
    rewrite rev_app_distr. reflexivity.
Qed.

Lemma re_sub_scan_id (fuel : nat) (s : str) :
  has_trailing_comma s = false -> re_sub_scan fuel s = s.
Proof.
  revert s. induction fuel as [|n IH]; intros s H; [reflexivity|].
  destruct s as [|c t]; [reflexivity|].
  cbn [re_sub_scan]. cbn [has_trailing_comma] in H.
  apply orb_false_iff in H. destruct H as [Hc Ht].
  destruct (c =? COMMA).
  - cbn [andb] in Hc. destruct (match_closer t); [discriminate|].
    now rewrite IH.
  - now rewrite IH.
Qed.

Lemma replace_id (old new : char) (s : str) :
  ~ In old s -> replace old new s = s.
Proof.
  intros Hn. unfold replace. rewrite <- (map_id s) at 2.
  apply map_ext_in. intros c Hc.
  destruct (N.eqb_spec c old) as [->|_]; [contradiction|reflexivity].
Qed.

Lemma no_smart_quote_not_in (s : str) (q : char) :
  existsb is_smart_quote s = false -> is_smart_quote q = true -> ~ In q s.
Proof.
  intros H Hq Hin.
  assert (existsb is_smart_quote s = true) by (apply existsb_exists; eauto).
  congruence.
Qed.

Lemma replace_smart_quotes_id (s : str) :
  existsb is_smart_quote s = false -> replace_smart_quotes s = s.
Proof.
  intros H. unfold replace_smart_quotes.
  rewrite (replace_id LEFT_DOUBLE_QUOTATION_MARK)
    by (apply (no_smart_quote_not_in _ _ H); reflexivity).
  rewrite (replace_id RIGHT_DOUBLE_QUOTATION_MARK)
    by (apply (no_smart_quote_not_in _ _ H); reflexivity).
  apply replace_id. apply (no_smart_quote_not_in _ _ H). reflexivity.
Qed.

(** The substitution does not depend on its fuel: it is the one-pass
    filter [drop_trailing_commas]. *)
Lemma match_closer_split (t g rest : str) :
  match_closer t = Some (g, rest) ->
  t = g ++ rest /\ (List.length rest < List.length t)%nat /\
  drop_trailing_commas t = g ++ drop_trailing_commas rest.
Proof.
  revert g. induction t as [|c t IH]; intros g H; [discriminate H|].
  cbn [match_closer] in H.
  destruct (isspace c) eqn:Hs.
  - destruct (match_closer t) as [[g' rest']|] eqn:E; [|discriminate H].
    inversion H; subst. destruct (IH _ eq_refl) as (-> & Hl & Hd).
    repeat split; [cbn [List.length]; rewrite length_app in *; lia|].
    cbn [drop_trailing_commas].
    destruct (N.eqb_spec c COMMA) as [->|_]; [discriminate Hs|].
    cbn [andb app]. now rewrite Hd.
  - destruct ((c =? RBRACE) || (c =? RBRACKET)) eqn:Hb; [|discriminate H].
    inversion H; subst. repeat split; [cbn; lia|].
    cbn [drop_trailing_commas].
    destruct (N.eqb_spec c COMMA) as [->|_]; [discriminate Hb|].
    reflexivity.
Qed.

Lemma re_sub_scan_drop (fuel : nat) :
  forall s, (List.length s <= fuel)%nat ->
  re_sub_scan fuel s = drop_trailing_commas s.
Proof.
  induction fuel as [|n IH]; intros s Hl.
  - destruct s; [reflexivity|cbn in Hl; lia].
  - destruct s as [|c t]; [reflexivity|].
    cbn [re_sub_scan drop_trailing_commas]. cbn [List.length] in Hl.
    destruct (c =? COMMA); cbn [andb].
    + destruct (match_closer t) as [[g rest]|] eqn:E.
      * destruct (match_closer_split _ _ _ E) as (_ & Hr & Hd).
        rewrite Hd, IH by lia. reflexivity.
      * rewrite IH by lia. reflexivity.
    + rewrite IH by lia. reflexivity.
Qed.

Lemma re_sub_trailing_commas_drop (s : str) :
  re_sub_trailing_commas s = drop_trailing_commas s.
Proof. apply re_sub_scan_drop. apply le_n. Qed.

(** The candidate the extractor cuts out of [pre ++ obj ++ post]. *)
Lemma extract_candidate (pre body post : str) :
  ~ In LBRACE pre -> ~ In RBRACE post ->
  let obj := LBRACE :: body ++ [RBRACE] in
  let text := pre ++ obj ++ post in
  find LBRACE text = Z.of_nat (List.length pre) /\
  rfind RBRACE text = Z.of_nat (List.length pre + List.length body + 1) /\
  strip (slice text (find LBRACE text) (rfind RBRACE text + 1)) = obj.
Proof.
  intros Hpre Hpost obj text.
  assert (Hf : find LBRACE text = Z.of_nat (List.length pre)).
  { unfold text, obj. cbn [app]. now apply find_first. }
  assert (Hr : rfind RBRACE text
               = Z.of_nat (List.length pre + List.length body + 1)).
  { unfold text, obj.
    replace (pre ++ (LBRACE :: body ++ [RBRACE]) ++ post)
      with ((pre ++ LBRACE :: body) ++ RBRACE :: post).
    - rewrite (rfind_last _ _ _ Hpost), length_app. cbn [List.length]. f_equal. lia.
    - rewrite <- !app_assoc. cbn [app]. rewrite <- app_assoc. reflexivity. }
  repeat split; trivial.
  rewrite Hf, Hr.
  replace (Z.of_nat (List.length pre + List.length body + 1) + 1)%Z
    with (Z.of_nat (List.length pre + List.length obj)).
  - unfold text. rewrite slice_middle. now apply strip_tight.
  - unfold obj. cbn [List.length]. rewrite length_app. cbn [List.length]. lia.
Qed.

End ExtractorFacts.
Import ExtractorFacts.

Module ExtractorClaims.

(** The extractor is its four steps in a row once the braces are found. *)
Lemma extract_json_object_steps (text : str) :
  is_empty text = false ->
  (0 <= find LBRACE text < rfind RBRACE text)%Z ->
  extract_json_object text =
  json_loads (replace_smart_quotes (re_sub_trailing_commas
    (strip (slice text (find LBRACE text) (rfind RBRACE text + 1))))).
Proof.
  intros He Hb. unfold extract_json_object. rewrite He.
  destruct (Z.eqb_spec (find LBRACE text) (-1)); [lia|].
  destruct (Z.eqb_spec (rfind RBRACE text) (-1)); [lia|].
  destruct (Z.leb_spec (rfind RBRACE text) (find LBRACE text)); [lia|].
  reflexivity.
Qed.

(** With a brace-delimited text between prose that holds no brace of the
    kind searched for, and nothing in it for the repairs to touch, the
    extractor is [json.loads] on that text. *)
Lemma extract_json_object_clean (pre body post : str) :
  ~ In LBRACE pre -> ~ In RBRACE post ->
  has_trailing_comma (LBRACE :: body ++ [RBRACE]) = false ->
  existsb is_smart_quote (LBRACE :: body ++ [RBRACE]) = false ->
  extract_json_object (pre ++ (LBRACE :: body ++ [RBRACE]) ++ post)
  = json_loads (LBRACE :: body ++ [RBRACE]).
Proof.
  intros Hpre Hpost Hc Hq.
  destruct (extract_candidate pre body post Hpre Hpost) as (Hf & Hr & Hs).
  rewrite extract_json_object_steps.
  - rewrite Hs. unfold re_sub_trailing_commas.
    rewrite (re_sub_scan_id _ _ Hc), (replace_smart_quotes_id _ Hq).
    reflexivity.
  - destruct pre; reflexivity.
  - rewrite Hf, Hr. lia.
Qed.

(** C4, counterexample: the object [{"a": ",}"}] is valid JSON, yet the
    extractor returns an object whose string has lost its comma. *)
Lemma C4_repair_inside_string_counterexample :
  let obj := lit "{`a`: `,}`}" in
  let text := lit "Result: " ++ obj ++ lit " Done." in
  json_loads obj = Return (JObject [(lit "a", JString (lit ",}"))]) /\
  extract_json_object text = Return (JObject [(lit "a", JString (lit "}"))]) /\
  extract_json_object text <> json_loads obj.
Proof.
  cbv zeta. repeat split; try (vm_compute; reflexivity).
  intros H. vm_compute in H. discriminate H.
Qed.

(** C4, amended: when the text is prose without an opening brace, then a
    valid JSON object text from its opening to its closing brace, then prose
    without a closing brace, and the object text holds no comma followed
    (white space apart) by a closing bracket and none of the three curly
    quotes the extractor replaces, the extractor returns that object. *)
Theorem C4_clean_object_returned_unchanged
  (pre body post : str) (members : list (str * json)) :
  json_loads (LBRACE :: body ++ [RBRACE]) = Return (JObject members) ->
  ~ In LBRACE pre -> ~ In RBRACE post ->
  has_trailing_comma (LBRACE :: body ++ [RBRACE]) = false ->
  existsb is_smart_quote (LBRACE :: body ++ [RBRACE]) = false ->
  extract_json_object (pre ++ (LBRACE :: body ++ [RBRACE]) ++ post)
  = Return (JObject members).
Proof.
  intros Hv Hpre Hpost Hc Hq.
  rewrite extract_json_object_clean by assumption. exact Hv.
Qed.

Lemma C4_clean_object_witness :
  extract_json_object
    (lit "Here it is: " ++ (LBRACE :: lit "`a`: [1, 2], `b`: `x, y`" ++ [RBRACE])
       ++ lit " Hope this helps.")
  = Return (JObject [(lit "a", JArray [JInt 1; JInt 2]); (lit "b", JString (lit "x, y"))]).
Proof.
  apply C4_clean_object_returned_unchanged.
  - vm_compute. reflexivity.
  - vm_compute. intuition discriminate.
  - vm_compute. intuition discriminate.
  - vm_compute. reflexivity.
  - vm_compute. reflexivity.
Defined.

Lemma replace_smart_quotes_map (s : str) :
  replace_smart_quotes s = map normalize_quote s.
Proof.
  unfold replace_smart_quotes, replace. rewrite !map_map.
  apply map_ext. intros c. unfold normalize_quote.
  destruct (N.eqb_spec c LEFT_DOUBLE_QUOTATION_MARK) as [->|H1]; [reflexivity|].
  destruct (N.eqb_spec c RIGHT_DOUBLE_QUOTATION_MARK) as [->|H2]; [reflexivity|].
  reflexivity.
Qed.

Lemma trailing_comma_example :
  extract_json_object (lit "{`a`: 1, `b`: [1,2,],}")
  = Return (JObject [(lit "a", JInt 1); (lit "b", JArray [JInt 1; JInt 2])]).
Proof. vm_compute. reflexivity. Qed.

Lemma curly_double_quotes_example :
  extract_json_object
    ([LBRACE; LEFT_DOUBLE_QUOTATION_MARK] ++ lit "key"
       ++ [RIGHT_DOUBLE_QUOTATION_MARK] ++ lit ": "
       ++ [LEFT_DOUBLE_QUOTATION_MARK] ++ lit "value"
       ++ [RIGHT_DOUBLE_QUOTATION_MARK; RBRACE])
  = Return (JObject [(lit "key", JString (lit "value"))]).
Proof. vm_compute. reflexivity. Qed.

(** C5, the input on which the code departs from the claim: in
    [{"title": "?Hi?"}], where the first [?] is U+2018 and the second
    U+2019, the right single quotation mark becomes an apostrophe and the
    left one stays as it is. *)
Theorem C5_left_single_quote_kept :
  extract_json_object
    (lit "{`title`: `" ++ [LEFT_SINGLE_QUOTATION_MARK] ++ lit "Hi"
       ++ [RIGHT_SINGLE_QUOTATION_MARK] ++ lit "`}")
  = Return (JObject
      [(lit "title", JString ([LEFT_SINGLE_QUOTATION_MARK] ++ lit "Hi" ++ [SQUOTE]))]).
Proof. vm_compute. reflexivity. Qed.

(** C6: a text in which the opening brace is absent, or the closing brace
    is absent, or the last closing brace comes before the first opening one
    makes the extractor raise a [ValueError], the exception of its own two
    [raise] statements, before anything is decoded, and no exception of
    another type: for the empty text the message is "Empty model output",
    for any other it is "No JSON object found in output: " followed by the
    first 500 characters of the text. *)
Theorem C6_no_object_span_value_error (text : str) :
  no_object_span text ->
  exists msg,
    extract_json_object text = Raise (ValueError msg) /\
    msg = if is_empty text then lit "Empty model output"
          else lit "No JSON object found in output: " ++ prefix 500 text.
Proof.
  intros H. unfold extract_json_object.
  destruct (is_empty text); [eexists; split; reflexivity|].
  pose proof (find_lower_bound LBRACE text).
  pose proof (rfind_lower_bound RBRACE text).
  destruct (Z.eqb_spec (find LBRACE text) (-1));
    [eexists; split; reflexivity|].
  destruct (Z.eqb_spec (rfind RBRACE text) (-1));
    [eexists; split; reflexivity|].
  destruct (Z.leb_spec (rfind RBRACE text) (find LBRACE text));
    [eexists; split; reflexivity|].
  exfalso. destruct H as [H|[H|H]]; lia.
Qed.

Lemma C6_no_object_span_witness :
  (exists msg,
     extract_json_object (lit "} nothing here {") = Raise (ValueError msg) /\
     msg = lit "No JSON object found in output: } nothing here {") /\
  (exists msg,
     extract_json_object [] = Raise (ValueError msg) /\
     msg = lit "Empty model output").
Proof.
  split.
  - apply (C6_no_object_span_value_error (lit "} nothing here {")).
    right. right. vm_compute. reflexivity.
  - apply (C6_no_object_span_value_error []). left. reflexivity.
Defined.

End ExtractorClaims.

(** * Properties of [call_hf_extract] *)

Module ControllerFacts.

Section Pass.

Variable env : Env.
Variables token model_name : str.
Variable msgs : list message.

Let primary := build_request token model_name msgs.

Lemma hf_chat_world (m : list message) (w : World) :
  snd (hf_chat env token model_name m w)
  = send (build_request token model_name m) w.
Proof. unfold hf_chat. destruct (endpoint env _ _); reflexivity. Qed.

Lemma repair_pass_effect (attempt : Z) (raw : str) (e : exn) (w : World) :
  let w1 := send primary w in
  pass_effect env token model_name msgs attempt w
    (fst (repair_pass env token model_name attempt raw e w1))
    (snd (repair_pass env token model_name attempt raw e w1)).
Proof.
  intros w1. unfold repair_pass, hf_chat.
  assert (Hg : exists g, pass_shape token model_name msgs g /\
             requests w ++ [primary]
               ++ [build_request token model_name (repair_messages raw)]
             = requests w ++ g).
  { eexists. split; [right; exists raw; reflexivity|reflexivity]. }
  destruct (endpoint env _ _) as [reply|code reason body|descr].
  - destruct (extract_json_object (strip reply)); cbn [fst snd];
      (split; [reflexivity|]); (split; [cbn; rewrite <- app_assoc; exact Hg|]);
      cbn; auto.
  - cbn [fst snd]. split; [reflexivity|].
    split; [cbn; rewrite <- app_assoc; exact Hg|]. cbn. auto.
  - cbn [fst snd]. split; [reflexivity|].
    split; [cbn; rewrite <- app_assoc; exact Hg|]. cbn. auto.
Qed.

Lemma attempt_body_effect (attempt : Z) (w : World) :
  pass_effect env token model_name msgs attempt w
    (fst (attempt_body env token model_name msgs attempt w))
    (snd (attempt_body env token model_name msgs attempt w)).
Proof.
  unfold attempt_body, hf_chat. fold primary.
  assert (Hg : exists g, pass_shape token model_name msgs g /\
             requests w ++ [primary] = requests w ++ g).
  { eexists. split; [left; reflexivity|reflexivity]. }
  destruct (endpoint env _ _) as [reply|code reason body|descr].
  - destruct (extract_json_object (strip reply)).
    + cbn [fst snd]. split; [reflexivity|]. split; [exact Hg|]. cbn. auto.
    + apply repair_pass_effect.
  - destruct (retryable code) eqn:Hr; cbn [fst snd].
    + split; [reflexivity|]. split; [exact Hg|]. cbn. auto.
    + split; [reflexivity|]. split; [exact Hg|]. cbn.
      repeat split. eauto.
  - apply repair_pass_effect.
Qed.

(** The loop sends at most one group of requests per attempt, sleeps at
    most once per group and writes nothing to the bucket. *)
Lemma attempts_trace (todo : list Z) :
  forall (err : last_err) (w : World),
  let out := attempts env token model_name msgs todo err w in
  puts (snd out) = puts w /\
  exists groups delays,
    requests (snd out) = requests w ++ List.concat groups /\
    Forall (pass_shape token model_name msgs) groups /\
    (List.length groups <= List.length todo)%nat /\
    sleeps (snd out) = sleeps w ++ delays /\
    (List.length delays <= List.length groups)%nat.
Proof.
  induction todo as [|a rest IH]; intros err w out.
  - subst out. cbn. split; [reflexivity|]. exists [], [].
    cbn. rewrite !app_nil_r. auto.
  - subst out. cbn [attempts].
    pose proof (attempt_body_effect a w) as He.
    destruct (attempt_body env token model_name msgs a w) as [p w1].
    cbn [fst snd] in He. destruct He as (Hp & (g & Hg & Hr) & Hs).
    destruct p as [structured raw|e|err'].
    + cbn [snd]. split; [exact Hp|]. exists [g], [].
      cbn [List.concat List.length]. rewrite !app_nil_r.
      repeat split; try tauto; try lia. constructor; auto.
    + cbn [snd]. split; [exact Hp|]. exists [g], [].
      cbn [List.concat List.length]. rewrite !app_nil_r.
      repeat split; try tauto; try lia. constructor; auto.
    + destruct (IH err' w1) as (Hp' & groups & delays & H1 & H2 & H3 & H4 & H5).
      destruct Hs as [Hs Hd].
      split; [congruence|].
      exists (g :: groups),
        ((base_delay * inject_Z (2 ^ (a - 1)) + random_random env (draws w))%Q :: delays).
      cbn [List.concat List.length].
      rewrite H1, Hr, H4, Hs, <- !app_assoc.
      repeat split; try lia. constructor; auto.
Qed.

(** When the loop ends in its final [raise], every attempt of [todo] was
    made and each was followed by its back-off sleep. *)
Lemma attempts_exhausted (todo : list Z) :
  forall (err : last_err) (w : World) (m : str) (d : last_err) (w' : World),
  attempts env token model_name msgs todo err w = (Raise (RuntimeError m d), w') ->
  sleeps w' = sleeps w ++ backoff_delays env todo (draws w) /\
  exists groups,
    requests w' = requests w ++ List.concat groups /\
    Forall (pass_shape token model_name msgs) groups /\
    List.length groups = List.length todo.
Proof.
  induction todo as [|a rest IH]; intros err w m d w' H.
  - cbn in H. inversion H; subst. cbn. rewrite app_nil_r.
    split; [reflexivity|]. exists []. cbn. rewrite app_nil_r. auto.
  - cbn [attempts] in H.
    pose proof (attempt_body_effect a w) as He.
    destruct (attempt_body env token model_name msgs a w) as [p w1].
    cbn [fst snd] in He. destruct He as (_ & (g & Hg & Hr) & Hs).
    destruct p as [structured raw|e|err'].
    + discriminate H.
    + destruct Hs as (_ & _ & c & r & b & -> & _). discriminate H.
    + destruct Hs as [Hs Hd].
      destruct (IH _ _ _ _ _ H) as (H1 & groups & H2 & H3 & H4).
      split.
      * rewrite H1, Hs, Hd, <- app_assoc. reflexivity.
      * exists (g :: groups). cbn [List.concat List.length].
        rewrite H2, Hr, <- app_assoc. repeat split; auto.
Qed.

End Pass.

Lemma call_hf_extract_loop (env : Env) (text : str) (w : World) :
  is_empty (token_of env) = false ->
  call_hf_extract env text w = loop_of env text [1; 2; 3]%Z NoError w.
Proof.
  intros Ht. unfold call_hf_extract. fold (token_of env). rewrite Ht.
  reflexivity.
Qed.

Lemma length_requests_send (r : request) (w : World) :
  List.length (requests (send r w)) = S (List.length (requests w)).
Proof. cbn. rewrite length_app. cbn. lia. Qed.

Section Steps.

Variable env : Env.
Variable text : str.

Let p := primary_request env text.

(** A retryable HTTP error on the primary request: the detail is recorded,
    the back-off sleep is taken, the pass goes on to the next attempt. *)
Lemma body_retryable (attempt : Z) (w : World) code reason body :
  endpoint env (List.length (requests w)) p = HttpFailure code reason body ->
  retryable code = true ->
  body_of env text attempt w
  = (Continue (HttpDetail code reason (or_empty body)),
     backoff env attempt (send p w)).
Proof.
  intros He Hr. unfold body_of, attempt_body, hf_chat.
  fold (primary_request env text). fold p. rewrite He, Hr. reflexivity.
Qed.

(** Any other status leaves the function with the error itself. *)
Lemma body_fatal (attempt : Z) (w : World) code reason body :
  endpoint env (List.length (requests w)) p = HttpFailure code reason body ->
  retryable code = false ->
  body_of env text attempt w
  = (Raised (HTTPError code reason (or_empty body)), send p w).
Proof.
  intros He Hr. unfold body_of, attempt_body, hf_chat.
  fold (primary_request env text). fold p. rewrite He, Hr. reflexivity.
Qed.

Lemma body_parsed (attempt : Z) (w : World) reply obj :
  endpoint env (List.length (requests w)) p = Completion reply ->
  extract_json_object (strip reply) = Return obj ->
  body_of env text attempt w = (Returned obj (strip reply), send p w).
Proof.
  intros He Hx. unfold body_of, attempt_body, hf_chat.
  fold (primary_request env text). fold p. rewrite He, Hx. reflexivity.
Qed.

(** A reply that does not parse and a repair reply that does: two requests,
    and the repaired reply is the one returned. *)
Lemma body_repaired (attempt : Z) (w : World) reply e reply2 obj :
  endpoint env (List.length (requests w)) p = Completion reply ->
  extract_json_object (strip reply) = Raise e ->
  endpoint env (S (List.length (requests w))) (repair_request env (strip reply))
  = Completion reply2 ->
  extract_json_object (strip reply2) = Return obj ->
  body_of env text attempt w
  = (Returned obj (strip reply2),
     send (repair_request env (strip reply)) (send p w)).
Proof.
  intros He Hx He2 Hx2. unfold body_of, attempt_body, hf_chat.
  fold (primary_request env text). fold p. rewrite He, Hx.
  unfold repair_pass, hf_chat. fold (repair_request env (strip reply)).
  rewrite length_requests_send, He2, Hx2. reflexivity.
Qed.

(** A reply that does not parse and a repair request that fails, whether
    by an exception of the request (an HTTP error of any status among
    them) or by a reply that does not parse either: the pass ends in the
    back-off sleep, with no further request. *)
Lemma body_repair_failed (attempt : Z) (w : World) reply e :
  endpoint env (List.length (requests w)) p = Completion reply ->
  extract_json_object (strip reply) = Raise e ->
  let rp := repair_request env (strip reply) in
  let after := backoff env attempt (send rp (send p w)) in
  match endpoint env (S (List.length (requests w))) rp with
  | Completion reply2 =>
      forall e2, extract_json_object (strip reply2) = Raise e2 ->
      body_of env text attempt w = (Continue (ParseRepairDetail e e2), after)
  | HttpFailure code reason body =>
      body_of env text attempt w
      = (Continue (ParseRepairDetail e (HTTPError code reason (or_empty body))), after)
  | OtherFailure descr =>
      body_of env text attempt w
      = (Continue (ParseRepairDetail e (OtherException descr)), after)
  end.
Proof.
  intros He Hx rp after. unfold body_of, attempt_body, hf_chat.
  fold (primary_request env text). fold p. rewrite He, Hx.
  unfold repair_pass, hf_chat. fold (repair_request env (strip reply)). fold rp.
  rewrite length_requests_send.
  destruct (endpoint env (S (List.length (requests w))) rp); try reflexivity.
  intros e2 Hx2. rewrite Hx2. reflexivity.
Qed.

(** A primary request that fails with anything but an HTTP error goes to
    the repair pass too, with nothing to repair. *)
Lemma body_other_failure (attempt : Z) (w : World) descr :
  endpoint env (List.length (requests w)) p = OtherFailure descr ->
  requests (snd (body_of env text attempt w))
  = requests w ++ [p; repair_request env []].
Proof.
  intros He. unfold body_of, attempt_body, hf_chat.
  fold (primary_request env text). fold p. rewrite He.
  unfold repair_pass, hf_chat. fold (repair_request env []).
  destruct (endpoint env _ (repair_request env [])) as [reply| |];
    [destruct (extract_json_object (strip reply))| |];
    cbn; rewrite <- app_assoc; reflexivity.
Qed.

Lemma loop_continue (attempt : Z) (rest : list Z) (err err' : last_err) (w w1 : World) :
  body_of env text attempt w = (Continue err', w1) ->
  loop_of env text (attempt :: rest) err w = loop_of env text rest err' w1.
Proof.
  intros H. unfold loop_of. cbn [attempts].
  unfold body_of in H. rewrite H. reflexivity.
Qed.

Lemma loop_returned (attempt : Z) (rest : list Z) (err : last_err) (w w1 : World) obj raw :
  body_of env text attempt w = (Returned obj raw, w1) ->
  loop_of env text (attempt :: rest) err w = (Return (obj, raw), w1).
Proof.
  intros H. unfold loop_of. cbn [attempts].
  unfold body_of in H. rewrite H. reflexivity.
Qed.

Lemma loop_raised (attempt : Z) (rest : list Z) (err : last_err) (w w1 : World) e :
  body_of env text attempt w = (Raised e, w1) ->
  loop_of env text (attempt :: rest) err w = (Raise e, w1).
Proof.
  intros H. unfold loop_of. cbn [attempts].
  unfold body_of in H. rewrite H. reflexivity.
Qed.

End Steps.

Lemma backoff_lower_bound (env : Env) (attempt : Z) (k : nat) :
  (0 <= random_random env k)%Q ->
  (inject_Z (2 ^ (attempt - 1))
   <= base_delay * inject_Z (2 ^ (attempt - 1)) + random_random env k)%Q.
Proof. intros H. unfold base_delay. lra. Qed.

End ControllerFacts.
Import ControllerFacts.

Module ControllerClaims.

(** C2: with the token set and the jitter not negative, [call_hf_extract]
    (1) sends at most three groups of requests, each made of the primary
    request and at most one repair request; (2) on a retryable HTTP error of
    the primary request records it, sleeps
    [base_delay * 2 ^ (attempt - 1) + random.random()] with [base_delay = 1]
    and goes on with the remaining attempts; (3) against an endpoint that
    answers 503, 503 and then a reply that parses, returns that reply's
    object after three primary requests and exactly two sleeps, of at least
    1 and 2 seconds; (4) when the three passes all end in a back-off, raises
    the [RuntimeError] that carries the detail recorded by the third, in the
    world the third pass left: there is no fourth attempt. *)
Theorem C2_retry_backoff_controller (env : Env) (text : str) (w : World) :
  is_empty (token_of env) = false ->
  (forall k, 0 <= random_random env k)%Q ->
  let p := primary_request env text in
  let n := List.length (requests w) in
  (exists groups,
     requests (snd (call_hf_extract env text w)) = requests w ++ List.concat groups /\
     Forall (group_of env text) groups /\ (List.length groups <= 3)%nat) /\
  (forall attempt rest err w0 code reason body,
     endpoint env (List.length (requests w0)) p = HttpFailure code reason body ->
     retryable code = true ->
     loop_of env text (attempt :: rest) err w0
     = loop_of env text rest (HttpDetail code reason (or_empty body))
         (time_sleep
            (1 * inject_Z (2 ^ (attempt - 1)) + random_random env (draws w0))%Q
            (draw (send p w0)))) /\
  (forall r1 b1 r2 b2 reply obj,
     endpoint env n p = HttpFailure 503 r1 b1 ->
     endpoint env (S n) p = HttpFailure 503 r2 b2 ->
     endpoint env (S (S n)) p = Completion reply ->
     extract_json_object (strip reply) = Return obj ->
     exists d1 d2,
       call_hf_extract env text w
       = (Return (obj, strip reply),
          {| requests := requests w ++ [p; p; p];
             sleeps := sleeps w ++ [d1; d2];
             draws := S (S (draws w));
             puts := puts w |}) /\
       d1 = (1 * inject_Z (2 ^ (1 - 1)) + random_random env (draws w))%Q /\
       d2 = (1 * inject_Z (2 ^ (2 - 1)) + random_random env (S (draws w)))%Q /\
       (1 <= d1)%Q /\ (2 <= d2)%Q) /\
  (forall d1 w1 d2 w2 d3 w3,
     body_of env text 1 w = (Continue d1, w1) ->
     body_of env text 2 w1 = (Continue d2, w2) ->
     body_of env text 3 w2 = (Continue d3, w3) ->
     call_hf_extract env text w = (Raise (retries_exhausted d3), w3) /\
     exists g, group_of env text g /\ requests w3 = requests w2 ++ g).
Proof.
  intros Ht Hj p n. repeat split.
  - rewrite (call_hf_extract_loop _ _ _ Ht).
    destruct (attempts_trace env (token_of env) (model_of env)
                (base_messages (prefix 8000 text)) [1; 2; 3]%Z NoError w)
      as (_ & groups & delays & H1 & H2 & H3 & _).
    exists groups. repeat split; assumption.
  - intros attempt rest err w0 code reason body He Hr.
    apply loop_continue. apply (body_retryable _ _ _ _ _ _ _ He Hr).
  - intros r1 b1 r2 b2 reply obj E1 E2 E3 Hx.
    exists (1 * inject_Z (2 ^ (1 - 1)) + random_random env (draws w))%Q,
           (1 * inject_Z (2 ^ (2 - 1)) + random_random env (S (draws w)))%Q.
    split; [|repeat split].
    + rewrite (call_hf_extract_loop _ _ _ Ht).
      rewrite (loop_continue _ _ _ _ _ _ _ _
                 (body_retryable _ _ _ _ _ _ _ E1 eq_refl)).
      assert (L1 : List.length (requests (backoff env 1 (send p w))) = S n)
        by apply length_requests_send.
      rewrite <- L1 in E2.
      rewrite (loop_continue _ _ _ _ _ _ _ _
                 (body_retryable _ _ _ _ _ _ _ E2 eq_refl)).
      assert (L2 : List.length
                (requests (backoff env 2 (send p (backoff env 1 (send p w)))))
              = S (S n)).
      { etransitivity; [apply length_requests_send|]. now rewrite L1. }
      rewrite <- L2 in E3.
      rewrite (loop_returned _ _ _ _ _ _ _ _ _ (body_parsed _ _ _ _ _ _ E3 Hx)).
      unfold backoff, sleep_s, time_sleep, draw, send.
      cbn [requests sleeps draws puts]. rewrite <- !app_assoc. reflexivity.
    + apply (backoff_lower_bound env 1). apply Hj.
    + apply (backoff_lower_bound env 2). apply Hj.
  - rewrite (call_hf_extract_loop _ _ _ Ht).
    rewrite (loop_continue _ _ _ _ _ _ _ _ H).
    rewrite (loop_continue _ _ _ _ _ _ _ _ H0).
    rewrite (loop_continue _ _ _ _ _ _ _ _ H1). reflexivity.
  - pose proof (attempt_body_effect env (token_of env) (model_of env)
                  (base_messages (prefix 8000 text)) 3 w2) as He.
    unfold body_of in H1. rewrite H1 in He.
    destruct He as (_ & Hg & _). exact Hg.
Qed.

Lemma C2_retry_backoff_witness :
  let env := stub_env script_503_503_ok [] in
  let p := primary_request env sample_text in
  call_hf_extract env sample_text world0
  = (Return (valid_object, lit "{`document_type`: `other`}"),
     {| requests := [p; p; p]; sleeps := [(3 # 2)%Q; (5 # 2)%Q];
        draws := 2; puts := [] |}).
Proof.
  intros env p.
  assert (Hj : forall k, (0 <= random_random env k)%Q)
    by (intros k; unfold Qle; cbn; lia).
  destruct (C2_retry_backoff_controller env sample_text world0 eq_refl Hj)
    as (_ & _ & H3 & _).
  destruct (H3 (lit "Service Unavailable") (Some (lit "busy"))
               (lit "Service Unavailable") (Some (lit "busy"))
               (lit "{`document_type`: `other`}") valid_object
               eq_refl eq_refl eq_refl eq_refl)
    as (d1 & d2 & Hc & -> & -> & _).
  rewrite Hc. reflexivity.
Defined.

(** C3: when the first request of [call_hf_extract] fails with an HTTP
    status outside 429, 500, 502, 503 and 504, the function raises that
    very error: one request was sent, nothing was slept, no random number
    was drawn. *)
Theorem C3_fatal_http_error_aborts
  (env : Env) (text : str) (w : World) code reason body :
  is_empty (token_of env) = false ->
  endpoint env (List.length (requests w)) (primary_request env text)
  = HttpFailure code reason body ->
  retryable code = false ->
  call_hf_extract env text w
  = (Raise (HTTPError code reason (or_empty body)),
     {| requests := requests w ++ [primary_request env text];
        sleeps := sleeps w; draws := draws w; puts := puts w |}).
Proof.
  intros Ht He Hr. rewrite (call_hf_extract_loop _ _ _ Ht).
  apply loop_raised. apply (body_fatal _ _ _ _ _ _ _ He Hr).
Qed.

Lemma C3_fatal_http_error_witness :
  let env := stub_env script_400 [] in
  call_hf_extract env sample_text world0
  = (Raise (HTTPError 400 (lit "Bad Request") (lit "no")),
     {| requests := [primary_request env sample_text];
        sleeps := []; draws := 0; puts := [] |}).
Proof.
  intros env.
  exact (C3_fatal_http_error_aborts env sample_text world0
           400%Z (lit "Bad Request") (Some (lit "no")) eq_refl eq_refl eq_refl).
Defined.

(** C7, the input on which the code departs from the claim: the first
    request fails with an exception that is not an HTTP error (a time-out),
    so no reply was ever parsed; the repair request is sent all the same,
    with an empty text to fix, and its reply is returned as the result. *)
Theorem C7_repair_without_parse_failure :
  let env := stub_env script_timeout_then_ok [] in
  call_hf_extract env sample_text world0
  = (Return (valid_object, lit "{`document_type`: `other`}"),
     {| requests := [primary_request env sample_text; repair_request env []];
        sleeps := []; draws := 0; puts := [] |}).
Proof. vm_compute. reflexivity. Qed.

(** C10: (1) a third pass that ends in a back-off, be it after a retryable
    HTTP error or after a parse/repair failure, has slept
    [base_delay * 2 ^ 2 + random.random()] before the loop raises; (2) when
    [call_hf_extract] raises its [RuntimeError], three sleeps were taken,
    one per attempt; (3) when every reply fails to parse, the function
    raises after six requests and exactly three sleeps. *)
Theorem C10_final_attempt_still_sleeps (env : Env) (text : str) (w : World) :
  is_empty (token_of env) = false ->
  (forall err w2 d w3,
     body_of env text 3 w2 = (Continue d, w3) ->
     loop_of env text [3%Z] err w2 = (Raise (retries_exhausted d), w3) /\
     sleeps w3 = sleeps w2 ++
       [(base_delay * inject_Z (2 ^ (3 - 1)) + random_random env (draws w2))%Q]) /\
  (forall m d w',
     call_hf_extract env text w = (Raise (RuntimeError m d), w') ->
     sleeps w' = sleeps w ++ backoff_delays env [1; 2; 3]%Z (draws w)) /\
  ((forall k r, exists reply e,
      endpoint env k r = Completion reply /\
      extract_json_object (strip reply) = Raise e) ->
   exists e e2 w',
     call_hf_extract env text w
     = (Raise (retries_exhausted (ParseRepairDetail e e2)), w') /\
     List.length (sleeps w') = (List.length (sleeps w) + 3)%nat /\
     List.length (requests w') = (List.length (requests w) + 6)%nat).
Proof.
  intros Ht.
  assert (Hstep : forall attempt w0,
    (forall k r, exists reply e,
       endpoint env k r = Completion reply /\
       extract_json_object (strip reply) = Raise e) ->
    exists e e2 w1,
      body_of env text attempt w0 = (Continue (ParseRepairDetail e e2), w1) /\
      List.length (requests w1) = S (S (List.length (requests w0)))).
  { intros attempt w0 Hall.
    destruct (Hall (List.length (requests w0)) (primary_request env text))
      as (reply & e & He & Hx).
    destruct (Hall (S (List.length (requests w0)))
                (repair_request env (strip reply))) as (reply2 & e2 & He2 & Hx2).
    pose proof (body_repair_failed env text attempt w0 reply e He Hx) as Hb.
    cbv zeta in Hb. rewrite He2 in Hb.
    exists e, e2. eexists. split; [apply (Hb e2 Hx2)|].
    unfold backoff, time_sleep, draw. cbn [requests].
    now rewrite !length_requests_send. }
  split; [|split].
  - intros err w2 d w3 Hb. split.
    + unfold loop_of. cbn [attempts]. unfold body_of in Hb. rewrite Hb.
      reflexivity.
    + pose proof (attempt_body_effect env (token_of env) (model_of env)
                    (base_messages (prefix 8000 text)) 3 w2) as He.
      unfold body_of in Hb. rewrite Hb in He.
      destruct He as (_ & _ & Hs & _). exact Hs.
  - intros m d w' H. rewrite (call_hf_extract_loop _ _ _ Ht) in H.
    apply (attempts_exhausted _ _ _ _ _ _ _ _ _ _ H).
  - intros Hall.
    destruct (Hstep 1%Z w Hall) as (e1 & f1 & w1 & B1 & L1).
    destruct (Hstep 2%Z w1 Hall) as (e2 & f2 & w2 & B2 & L2).
    destruct (Hstep 3%Z w2 Hall) as (e3 & f3 & w3 & B3 & L3).
    assert (Hc : call_hf_extract env text w
                 = (Raise (retries_exhausted (ParseRepairDetail e3 f3)), w3)).
    { rewrite (call_hf_extract_loop _ _ _ Ht).
      rewrite (loop_continue _ _ _ _ _ _ _ _ B1).
      rewrite (loop_continue _ _ _ _ _ _ _ _ B2).
      rewrite (loop_continue _ _ _ _ _ _ _ _ B3). reflexivity. }
    exists e3, f3, w3. split; [exact Hc|]. split; [|lia].
    rewrite (call_hf_extract_loop _ _ _ Ht) in Hc.
    destruct (attempts_exhausted _ _ _ _ _ _ _ _ _ _ Hc) as (Hs & _).
    rewrite Hs, length_app. reflexivity.
Qed.

Lemma C10_final_attempt_witness :
  let env := stub_env script_prose [] in
  exists e e2 w',
    call_hf_extract env sample_text world0
    = (Raise (retries_exhausted (ParseRepairDetail e e2)), w') /\
    List.length (sleeps w') = 3%nat /\ List.length (requests w') = 6%nat.
Proof.
  intros env.
  destruct (C10_final_attempt_still_sleeps env sample_text world0 eq_refl)
    as (_ & _ & H3).
  apply H3. intros k r.
  exists (lit "I cannot answer that."),
    (NoJsonFound (lit "I cannot answer that.")).
  split; reflexivity.
Defined.

End ControllerClaims.

(** * Properties of [lambda_handler] *)

Module DriverClaims.

Lemma call_hf_extract_puts (env : Env) (text : str) (w : World) :
  puts (snd (call_hf_extract env text w)) = puts w.
Proof.
  unfold call_hf_extract. destruct (is_empty _); [reflexivity|].
  apply attempts_trace.
Qed.


Lemma is_target_passes (key : str) :
  is_target key = true ->
  negb (startswith (lit "raw/") key) || negb (endswith (lit ".pdf") (lower key))
  = false.
Proof.
  unfold is_target. intros H. apply andb_prop in H. destruct H as [-> ->].
  reflexivity.
Qed.

Lemma length_zero_iff_nil (s : str) :
  (List.length s =? 0)%nat = is_empty s.
Proof. destruct s; reflexivity. Qed.

(** The handler on a target key, by the three ways it can end. *)
Lemma lambda_handler_target (env : Env) (ev : event) (w : World) :
  is_target (object_key ev) = true ->
  let w2 := put_object (meta_put env ev) (put_object (text_put env ev) w) in
  lambda_handler env ev w =
  if is_empty (strip (extracted_text_of env)) then (respond "no_text", w2)
  else
    match call_hf_extract env (extracted_text_of env) w2 with
    | (Return (structured, _), w3) =>
        (respond "processed_with_llm", put_object (structured_put ev structured) w3)
    | (Raise e, w3) =>
        (respond "processed_but_llm_failed", put_object (error_put ev e []) w3)
    end.
Proof.
  intros Ht w2. unfold lambda_handler.
  rewrite (is_target_passes _ Ht), length_zero_iff_nil.
  reflexivity.
Qed.



(** On a target key with text, the last object written after a failure of
    [call_hf_extract] is the error report, and its snippet is empty:
    [raw_llm_output] is still [None] when the handler builds the report. *)
Lemma error_report_snippet_empty (env : Env) (ev : event) (w : World) e w3 :
  is_target (object_key ev) = true ->
  is_empty (strip (extracted_text_of env)) = false ->
  call_hf_extract env (extracted_text_of env)
    (put_object (meta_put env ev) (put_object (text_put env ev) w))
  = (Raise e, w3) ->
  lambda_handler env ev w
  = (respond "processed_but_llm_failed", put_object (error_put ev e []) w3).
Proof.
  intros Ht Hb Hc. rewrite (lambda_handler_target _ _ _ Ht), Hb, Hc.
  reflexivity.
Qed.

(** C8, the input on which the code departs from the claim: a document
    with text, and an endpoint whose every reply is the prose
    "I cannot answer that.".  The handler answers 200 and writes the error
    report with the source, the error and the hint, but the snippet of the
    raw reply is empty although the last of the six replies was that
    prose. *)
Theorem C8_error_report_without_reply_snippet :
  let env := stub_env script_prose sample_pages in
  let out := lambda_handler env sample_event world0 in
  let e := NoJsonFound (lit "I cannot answer that.") in
  fst out = {| statusCode := 200; body := lit "processed_but_llm_failed" |} /\
  puts (snd out)
  = [text_put env sample_event; meta_put env sample_event;
     {| Bucket := lit "docs";
        Key := lit "processed/Invoice.v2.structured.error.json";
        Body := ErrorReport (lit "s3://docs/raw/2024/Invoice.v2.PDF")
                  (retries_exhausted (ParseRepairDetail e e))
                  hint_text [];
        ContentType := application_json |}] /\
  List.length (requests (snd out)) = 6%nat /\
  endpoint env 5 (repair_request env (lit "I cannot answer that."))
  = Completion (lit "I cannot answer that.").
Proof. vm_compute. repeat split. Qed.




End DriverClaims.

(** * Further properties of [extract_json_object] *)

Module ExtractorExtras.

(** [find] and [rfind] locate what they return. *)
Lemma find_split (c : char) (s : str) :
  (0 <= find c s)%Z ->
  exists pre t, s = pre ++ c :: t /\ ~ In c pre /\
                find c s = Z.of_nat (List.length pre).
Proof.
  induction s as [|x t IH]; cbn [find]; [lia|].
  destruct (N.eqb_spec x c) as [->|Hx].
  - intros _. exists [], t. repeat split. intros [].
  - destruct (Z.eqb_spec (find c t) (-1)) as [|Hn]; [lia|]. intros _.
    pose proof (find_lower_bound c t).
    destruct IH as (pre & t' & -> & Hpre & Hf); [lia|].
    exists (x :: pre), t'. repeat split.
    + intros [E|Hin]; [congruence|contradiction].
    + rewrite Hf. cbn [List.length]. lia.
Qed.

Lemma rfind_split (c : char) (s : str) :
  (0 <= rfind c s)%Z ->
  exists s1 post, s = s1 ++ c :: post /\ ~ In c post /\
                  rfind c s = Z.of_nat (List.length s1).
Proof.
  induction s as [|x t IH]; cbn [rfind]; [lia|].
  destruct (Z.eqb_spec (rfind c t) (-1)) as [Hn|Hn].
  - destruct (N.eqb_spec x c) as [->|Hx]; [|lia]. intros _.
    exists [], t. repeat split.
    intros Hin. pose proof (rfind_lower_bound c t).
    assert (Hex : exists a b, t = a ++ c :: b) by now apply in_split.
    destruct Hex as (a & b & ->).
    clear - Hn. revert Hn. induction a as [|y a IHa]; cbn [app rfind].
    + pose proof (rfind_lower_bound c b).
      destruct (Z.eqb_spec (rfind c b) (-1)); [rewrite N.eqb_refl|]; lia.
    + pose proof (rfind_lower_bound c (a ++ c :: b)).
      destruct (Z.eqb_spec (rfind c (a ++ c :: b)) (-1)); [tauto|lia].
  - intros _. pose proof (rfind_lower_bound c t).
    destruct IH as (s1 & post & -> & Hpost & Hf); [lia|].
    exists (x :: s1), post. repeat split; trivial.
    rewrite Hf. cbn [List.length]. lia.
Qed.

(** A text that passes the brace test is prose, an opening brace, a body,
    a closing brace and prose again. *)
Lemma braces_split (text : str) :
  (0 <= find LBRACE text < rfind RBRACE text)%Z ->
  exists pre body post,
    text = pre ++ (LBRACE :: body ++ [RBRACE]) ++ post /\
    ~ In LBRACE pre /\ ~ In RBRACE post.
Proof.
  intros H.
  destruct (find_split LBRACE text) as (pre & t & E1 & Hpre & Hf); [lia|].
  destruct (rfind_split RBRACE text) as (s1 & post & E2 & Hpost & Hr); [lia|].
  assert (Hlen : (List.length pre < List.length s1)%nat) by lia.
  rewrite E1 in E2. apply app_eq_app in E2.
  destruct E2 as (l & [[-> E]|[-> E]]).
  - rewrite length_app in Hlen. lia.
  - destruct l as [|b body].
    + rewrite app_nil_r in Hlen. lia.
    + cbn [app] in E. inversion E; subst.
      exists pre, body, post. repeat split; trivial.
      cbn [app]. rewrite <- app_assoc. reflexivity.
Qed.

Lemma find_rfind_distinct (text : str) :
  (0 <= find LBRACE text)%Z -> find LBRACE text <> rfind RBRACE text.
Proof.
  intros H0 E.
  destruct (find_split LBRACE text) as (pre & t & E1 & _ & Hf); [lia|].
  destruct (rfind_split RBRACE text) as (s1 & post & E2 & _ & Hr); [lia|].
  assert (Hlen : List.length pre = List.length s1) by lia.
  rewrite E1 in E2. apply app_eq_app in E2.
  destruct E2 as (l & [[-> E2]|[-> E2]]); rewrite length_app in Hlen;
    (destruct l; [|cbn in Hlen; lia]); cbn in E2; inversion E2.
Qed.

(** The extractor, by the three ways it can go: the empty text, a text
    without an object span, and a text cut at its first opening and last
    closing brace, whose span alone reaches the decoder. *)
Lemma extract_json_object_cases (text : str) :
  (text = [] /\ extract_json_object text = Raise EmptyModelOutput) \/
  (text <> [] /\ no_object_span text /\
   extract_json_object text = Raise (NoJsonFound text)) \/
  (exists pre body post,
     text = pre ++ (LBRACE :: body ++ [RBRACE]) ++ post /\
     ~ In LBRACE pre /\ ~ In RBRACE post /\
     extract_json_object text
     = json_loads (replace_smart_quotes
         (drop_trailing_commas (LBRACE :: body ++ [RBRACE])))).
Proof.
  unfold extract_json_object.
  destruct text as [|c0 t0]; [left; split; reflexivity|]. right.
  cbn [is_empty]. assert (Hne : c0 :: t0 <> []) by discriminate.
  remember (c0 :: t0) as text eqn:Ht. clear Ht.
  pose proof (find_lower_bound LBRACE text) as Hf.
  pose proof (rfind_lower_bound RBRACE text) as Hr.
  destruct (Z.eqb_spec (find LBRACE text) (-1)).
  { left. repeat split; [assumption|]. left. assumption. }
  destruct (Z.eqb_spec (rfind RBRACE text) (-1)).
  { left. repeat split; [assumption|]. right. left. assumption. }
  destruct (Z.leb_spec (rfind RBRACE text) (find LBRACE text)) as [Hle|Hlt].
  { left. repeat split; [assumption|]. right. right.
    assert (find LBRACE text <> rfind RBRACE text)
      by (apply find_rfind_distinct; lia).
    lia. }
  right. cbn [orb].
  destruct (braces_split text) as (pre & body & post & E & Hpre & Hpost); [lia|].
  exists pre, body, post. repeat split; trivial.
  destruct (extract_candidate pre body post Hpre Hpost) as (_ & _ & Hs).
  rewrite E, Hs, re_sub_trailing_commas_drop. reflexivity.
Qed.

Lemma parse_members_object (n : nat) :
  forall s acc v r, parse_members n s acc = Scanned v r ->
  exists members, v = JObject members.
Proof.
  induction n as [|n IH]; intros s acc v r H; [discriminate H|].
  cbn [parse_members] in H.
  destruct s as [|q t]; [discriminate H|].
  destruct (q =? DQUOTE); [|discriminate H].
  destruct (scanstring t) as [[key r1]|]; [|discriminate H].
  destruct (skip_ws r1) as [|colon r2]; [discriminate H|].
  destruct (colon =? 58); [|discriminate H].
  destruct (scan_once n (skip_ws r2)) as [v' r3| |]; try discriminate H.
  destruct (skip_ws r3) as [|d r4]; [discriminate H|].
  destruct (d =? RBRACE); [inversion H; eauto|].
  destruct (d =? COMMA); [|discriminate H].
  apply (IH _ _ _ _ H).
Qed.

(** A text that begins with an opening brace decodes to an object or not
    at all. *)
Lemma json_loads_brace_object (s : str) (v : json) :
  json_loads (LBRACE :: s) = Return v -> exists members, v = JObject members.
Proof.
  unfold json_loads.
  replace (2 * List.length (LBRACE :: s) + 2)%nat
    with (S (2 * List.length (LBRACE :: s) + 1)) by lia.
  change (skip_ws (LBRACE :: s)) with (LBRACE :: s).
  cbn [scan_once]. change (LBRACE =? DQUOTE) with false.
  change (LBRACE =? LBRACE) with true. cbv iota.
  destruct (skip_ws s) as [|c' t']; [discriminate|].
  destruct (c' =? RBRACE).
  - destruct (skip_ws t'); intros H; inversion H; eauto.
  - destruct (parse_members _ _ _) as [v' rest| |] eqn:E; try discriminate.
    destruct (skip_ws rest); intros H; inversion H; subst.
    apply (parse_members_object _ _ _ _ _ E).
Qed.

Lemma drop_trailing_commas_head (c : char) (t : str) :
  (c =? COMMA) = false ->
  drop_trailing_commas (c :: t) = c :: drop_trailing_commas t.
Proof. intros H. cbn [drop_trailing_commas]. now rewrite H. Qed.

(** The repaired candidate still begins with its opening brace, so it
    decodes to an object or not at all. *)
Lemma candidate_decodes_to_object (body : str) (v : json) :
  json_loads (replace_smart_quotes
    (drop_trailing_commas (LBRACE :: body ++ [RBRACE]))) = Return v ->
  exists members, v = JObject members.
Proof.
  intros H.
  rewrite drop_trailing_commas_head in H by reflexivity.
  unfold replace_smart_quotes, replace in H. cbn [map] in H.
  change (if LBRACE =? LEFT_DOUBLE_QUOTATION_MARK then DQUOTE else LBRACE)
    with LBRACE in H.
  change (if LBRACE =? RIGHT_DOUBLE_QUOTATION_MARK then DQUOTE else LBRACE)
    with LBRACE in H.
  change (if LBRACE =? RIGHT_SINGLE_QUOTATION_MARK then SQUOTE else LBRACE)
    with LBRACE in H.
  apply (json_loads_brace_object _ _ H).
Qed.

Lemma extract_returns_object_or_raises (text : str) (v : json) :
  extract_json_object text = Return v ->
  exists body,
    json_loads (replace_smart_quotes
      (drop_trailing_commas (LBRACE :: body ++ [RBRACE]))) = Return v.
Proof.
  intros H.
  destruct (extract_json_object_cases text)
    as [[_ E]|[(_ & _ & E)|(pre & body & post & _ & _ & _ & E)]];
    rewrite E in H; try discriminate H.
  exists body. exact H.
Qed.

(** X1: what [extract_json_object] returns is always a JSON object, never
    an array, a string, a number or a constant. *)
Theorem extract_json_object_returns_object (text : str) (v : json) :
  extract_json_object text = Return v -> exists members, v = JObject members.
Proof.
  intros H. apply extract_returns_object_or_raises in H.
  destruct H as [body H]. apply (candidate_decodes_to_object _ _ H).
Qed.

Lemma extract_json_object_returns_object_witness :
  exists members,
    JObject [(lit "a", JArray [JInt 1; JInt 2])] = JObject members.
Proof.
  apply (extract_json_object_returns_object
           (lit "Answer: {`a`: [1, 2,]} (done)")).
  vm_compute. reflexivity.
Defined.

(** X2: the prose before the first opening brace and after the last closing
    brace has no part in the result. *)
Theorem extract_json_object_ignores_prose (pre body post : str) :
  ~ In LBRACE pre -> ~ In RBRACE post ->
  extract_json_object (pre ++ (LBRACE :: body ++ [RBRACE]) ++ post)
  = extract_json_object (LBRACE :: body ++ [RBRACE]).
Proof.
  intros Hpre Hpost.
  assert (Hgen : forall p q, ~ In LBRACE p -> ~ In RBRACE q ->
            extract_json_object (p ++ (LBRACE :: body ++ [RBRACE]) ++ q)
            = json_loads (replace_smart_quotes (re_sub_trailing_commas
                (LBRACE :: body ++ [RBRACE])))).
  { intros p q Hp Hq.
    destruct (extract_candidate p body q Hp Hq) as (Hf & Hr & Hs).
    cbv zeta in Hf, Hr, Hs. unfold extract_json_object.
    replace (is_empty (p ++ (LBRACE :: body ++ [RBRACE]) ++ q)) with false
      by (destruct p; reflexivity).
    rewrite Hs, Hf, Hr.
    destruct (Z.eqb_spec (Z.of_nat (List.length p)) (-1)); [lia|].
    destruct (Z.eqb_spec (Z.of_nat (List.length p + List.length body + 1)) (-1));
      [lia|].
    destruct (Z.leb_spec (Z.of_nat (List.length p + List.length body + 1))
                (Z.of_nat (List.length p))); [lia|].
    reflexivity. }
  rewrite (Hgen pre post Hpre Hpost).
  rewrite <- (Hgen [] [] (fun H => H) (fun H => H)).
  cbn [app]. rewrite app_nil_r. reflexivity.
Qed.

Lemma extract_json_object_ignores_prose_witness :
  extract_json_object (lit "Sure, here you go: {`a`: 1,} Anything else?")
  = extract_json_object (lit "{`a`: 1,}").
Proof.
  apply (extract_json_object_ignores_prose
           (lit "Sure, here you go: ") (lit "`a`: 1,") (lit " Anything else?"));
    vm_compute; intuition discriminate.
Defined.

Lemma drop_trailing_commas_length (s : str) :
  (List.length (drop_trailing_commas s) <= List.length s)%nat.
Proof.
  induction s as [|c t IH]; cbn [drop_trailing_commas List.length]; [lia|].
  destruct ((c =? COMMA) && _); cbn [List.length]; lia.
Qed.

(** X3: the comma repair deletes commas and nothing else: the other
    characters come out as they went in, in the same order; the text is
    unchanged when the pattern occurs nowhere and strictly shorter when it
    occurs somewhere. *)
Theorem re_sub_trailing_commas_only_commas (s : str) :
  filter not_comma (re_sub_trailing_commas s) = filter not_comma s /\
  (has_trailing_comma s = false -> re_sub_trailing_commas s = s) /\
  (has_trailing_comma s = true ->
   (List.length (re_sub_trailing_commas s) < List.length s)%nat).
Proof.
  rewrite re_sub_trailing_commas_drop. repeat split.
  - induction s as [|c t IH]; [reflexivity|].
    cbn [drop_trailing_commas]. unfold not_comma at 2. cbn [filter].
    fold not_comma. destruct (N.eqb_spec c COMMA) as [->|Hc]; cbn [andb negb].
    + destruct (match_closer t); [exact IH|].
      cbn [filter]. unfold not_comma at 1. rewrite N.eqb_refl. exact IH.
    + cbn [filter]. unfold not_comma at 1.
      destruct (N.eqb_spec c COMMA) as [|_]; [contradiction|].
      cbn [negb]. now rewrite IH.
  - intros H. rewrite <- re_sub_trailing_commas_drop.
    apply (re_sub_scan_id _ _ H).
  - induction s as [|c t IH]; [discriminate|].
    cbn [has_trailing_comma drop_trailing_commas List.length]. intros H.
    pose proof (drop_trailing_commas_length t) as Hl.
    destruct ((c =? COMMA) &&
              match match_closer t with Some _ => true | None => false end);
      cbn [orb] in H; cbn [List.length]; [lia|].
    specialize (IH H). lia.
Qed.

Lemma re_sub_trailing_commas_only_commas_witness :
  (List.length (re_sub_trailing_commas (lit "[1, 2 , ]"))
   < List.length (lit "[1, 2 , ]"))%nat.
Proof.
  apply (re_sub_trailing_commas_only_commas (lit "[1, 2 , ]")).
  vm_compute. reflexivity.
Defined.

Lemma normalize_quote_not_smart (c : char) :
  is_smart_quote (normalize_quote c) = false.
Proof.
  unfold normalize_quote.
  destruct (N.eqb_spec c LEFT_DOUBLE_QUOTATION_MARK); [reflexivity|].
  destruct (N.eqb_spec c RIGHT_DOUBLE_QUOTATION_MARK); [reflexivity|].
  destruct (N.eqb_spec c RIGHT_SINGLE_QUOTATION_MARK); [reflexivity|].
  unfold is_smart_quote, mem_char. cbn [existsb].
  destruct (N.eqb_spec c LEFT_DOUBLE_QUOTATION_MARK); [contradiction|].
  destruct (N.eqb_spec c RIGHT_DOUBLE_QUOTATION_MARK); [contradiction|].
  destruct (N.eqb_spec c RIGHT_SINGLE_QUOTATION_MARK); [contradiction|].
  reflexivity.
Qed.

Lemma replace_smart_quotes_pointwise (s : str) :
  replace_smart_quotes s = map normalize_quote s.
Proof.
  unfold replace_smart_quotes, replace. rewrite !map_map.
  apply map_ext. intros c. unfold normalize_quote.
  destruct (N.eqb_spec c LEFT_DOUBLE_QUOTATION_MARK) as [->|H1]; [reflexivity|].
  destruct (N.eqb_spec c RIGHT_DOUBLE_QUOTATION_MARK) as [->|H2]; reflexivity.
Qed.

(** X4: the quote replacement keeps the length of the text, leaves none of
    the three characters it looks for, changes nothing when applied a second
    time, and leaves every character below U+2019 (all of ASCII among them)
    as it is. *)
Theorem replace_smart_quotes_normal_form (s : str) :
  List.length (replace_smart_quotes s) = List.length s /\
  existsb is_smart_quote (replace_smart_quotes s) = false /\
  replace_smart_quotes (replace_smart_quotes s) = replace_smart_quotes s /\
  (Forall (fun c => c < RIGHT_SINGLE_QUOTATION_MARK) s ->
   replace_smart_quotes s = s).
Proof.
  assert (Hno : existsb is_smart_quote (replace_smart_quotes s) = false).
  { rewrite replace_smart_quotes_pointwise.
    induction s as [|c t IH]; [reflexivity|].
    cbn [map existsb]. now rewrite normalize_quote_not_smart, IH. }
  split; [|split; [|split]].
  - rewrite replace_smart_quotes_pointwise. apply length_map.
  - exact Hno.
  - apply (replace_smart_quotes_id _ Hno).
  - intros Hall. apply replace_smart_quotes_id. clear Hno.
    induction Hall as [|c t Hc _ IH]; [reflexivity|].
    cbn [existsb]. rewrite IH, orb_false_r.
    unfold is_smart_quote, mem_char. cbn [existsb].
    unfold LEFT_DOUBLE_QUOTATION_MARK, RIGHT_DOUBLE_QUOTATION_MARK,
      RIGHT_SINGLE_QUOTATION_MARK in *.
    destruct (N.eqb_spec c 8220); [lia|].
    destruct (N.eqb_spec c 8221); [lia|].
    destruct (N.eqb_spec c 8217); [lia|]. reflexivity.
Qed.

Lemma replace_smart_quotes_normal_form_witness :
  replace_smart_quotes (lit "{`a`: `it's`}") = lit "{`a`: `it's`}".
Proof.
  apply (replace_smart_quotes_normal_form (lit "{`a`: `it's`}")).
  vm_compute. repeat constructor.
Defined.

End ExtractorExtras.

(** * Further properties of [call_hf_extract] *)

Module ControllerExtras.
Import ExtractorExtras.

Section Run.

Variable env : Env.
Variables token model_name : str.
Variable msgs : list message.

Lemma repair_pass_outcome (attempt : Z) (raw : str) (e : exn) (w : World) p w1 :
  repair_pass env token model_name attempt raw e w = (p, w1) ->
  match p with
  | Returned obj raw' =>
      extract_json_object raw' = Return obj /\
      exists req reply,
        requests w1 = requests w ++ [req] /\
        endpoint env (List.length (requests w)) req = Completion reply /\
        raw' = strip reply
  | Raised _ => False
  | Continue d => d <> NoError
  end.
Proof.
  unfold repair_pass, hf_chat.
  destruct (endpoint env _ _) as [reply|code reason body|descr] eqn:He.
  - destruct (extract_json_object (strip reply)) eqn:Hx;
      intros H; inversion H; subst; [|discriminate].
    split; [exact Hx|]. do 2 eexists. split; [reflexivity|].
    split; [exact He|reflexivity].
  - intros H; inversion H; subst. discriminate.
  - intros H; inversion H; subst. discriminate.
Qed.

Lemma attempt_body_outcome (attempt : Z) (w : World) p w1 :
  attempt_body env token model_name msgs attempt w = (p, w1) ->
  match p with
  | Returned obj raw =>
      extract_json_object raw = Return obj /\
      exists before req reply,
        requests w1 = before ++ [req] /\
        endpoint env (List.length before) req = Completion reply /\
        raw = strip reply
  | Raised e =>
      exists code reason body, e = HTTPError code reason body /\
                               retryable code = false
  | Continue d => d <> NoError
  end.
Proof.
  unfold attempt_body, hf_chat.
  assert (Hrep : forall raw e,
    repair_pass env token model_name attempt raw e
      (send (build_request token model_name msgs) w) = (p, w1) ->
    match p with
    | Returned obj raw' =>
        extract_json_object raw' = Return obj /\
        exists before req reply,
          requests w1 = before ++ [req] /\
          endpoint env (List.length before) req = Completion reply /\
          raw' = strip reply
    | Raised e0 =>
        exists code reason body, e0 = HTTPError code reason body /\
                                 retryable code = false
    | Continue d => d <> NoError
    end).
  { intros raw e H. apply repair_pass_outcome in H.
    destruct p as [obj raw'|e0|d]; [|contradiction|exact H].
    destruct H as (Hx & req & reply & Hr & He & ->).
    split; [exact Hx|].
    exists (requests (send (build_request token model_name msgs) w)), req, reply.
    repeat split; assumption. }
  destruct (endpoint env _ _) as [reply|code reason body|descr] eqn:He.
  - destruct (extract_json_object (strip reply)) eqn:Hx.
    + intros H; inversion H; subst. split; [exact Hx|].
      exists (requests w). do 2 eexists. split; [reflexivity|].
      split; [exact He|reflexivity].
    + apply Hrep.
  - destruct (retryable code) eqn:Hr; intros H; inversion H; subst.
    + discriminate.
    + eauto.
  - apply Hrep.
Qed.

(** The whole run of the loop on the wire and on the clock: one group of
    requests per pass made, and the back-off delays of the first [j]
    attempts, [j] being the number of passes that ended in a back-off. *)
Lemma attempts_run (todo : list Z) :
  forall (err : last_err) (w : World),
  let out := attempts env token model_name msgs todo err w in
  exists groups j,
    requests (snd out) = requests w ++ List.concat groups /\
    Forall (pass_shape token model_name msgs) groups /\
    (List.length groups <= List.length todo)%nat /\
    (todo <> [] -> groups <> []) /\
    (j <= List.length groups)%nat /\
    sleeps (snd out) = sleeps w ++ backoff_delays env (firstn j todo) (draws w).
Proof.
  induction todo as [|a rest IH]; intros err w out; subst out.
  - exists [], 0%nat. cbn. rewrite !app_nil_r. repeat split; auto.
  - cbn [attempts].
    pose proof (attempt_body_effect env token model_name msgs a w) as He.
    destruct (attempt_body env token model_name msgs a w) as [p w1].
    cbn [fst snd] in He. destruct He as (_ & (g & Hg & Hr) & Hs).
    destruct p as [structured raw|e|err'].
    + exists [g], 0%nat. cbn [snd List.concat List.length firstn backoff_delays].
      rewrite !app_nil_r. repeat split; try tauto; try lia.
      * constructor; auto.
      * discriminate.
    + exists [g], 0%nat. cbn [snd List.concat List.length firstn backoff_delays].
      rewrite !app_nil_r. repeat split; try tauto; try lia.
      * constructor; auto.
      * discriminate.
    + destruct (IH err' w1) as (groups & j & H1 & H2 & H3 & _ & H5 & H6).
      destruct Hs as [Hs Hd].
      exists (g :: groups), (S j).
      cbn [List.concat List.length firstn backoff_delays].
      rewrite H1, Hr, H6, Hs, Hd, <- !app_assoc.
      repeat split; try lia.
      * constructor; auto.
      * discriminate.
Qed.

Lemma attempts_returns (todo : list Z) :
  forall (err : last_err) (w : World) obj raw w',
  attempts env token model_name msgs todo err w = (Return (obj, raw), w') ->
  extract_json_object raw = Return obj /\
  exists before req reply,
    requests w' = before ++ [req] /\
    endpoint env (List.length before) req = Completion reply /\
    raw = strip reply.
Proof.
  induction todo as [|a rest IH]; intros err w obj raw w' H;
    [discriminate H|].
  cbn [attempts] in H.
  destruct (attempt_body env token model_name msgs a w) as [p w1] eqn:Hb.
  apply attempt_body_outcome in Hb.
  destruct p as [structured raw0|e|err'].
  - inversion H; subst. exact Hb.
  - discriminate H.
  - apply (IH _ _ _ _ _ H).
Qed.

Lemma attempts_raises (todo : list Z) :
  forall (err : last_err) (w : World) e w',
  attempts env token model_name msgs todo err w = (Raise e, w') ->
  (todo = [] /\ e = retries_exhausted err) \/
  (exists d, e = retries_exhausted d /\ d <> NoError) \/
  (exists code reason body, e = HTTPError code reason body /\
                            retryable code = false).
Proof.
  induction todo as [|a rest IH]; intros err w e w' H.
  - left. inversion H. split; reflexivity.
  - right. cbn [attempts] in H.
    destruct (attempt_body env token model_name msgs a w) as [p w1] eqn:Hb.
    apply attempt_body_outcome in Hb.
    destruct p as [structured raw0|e0|err'].
    + discriminate H.
    + inversion H; subst. right. exact Hb.
    + destruct (IH _ _ _ _ H) as [[_ ->]|[Hd|Hh]]; [left; eauto|left|right];
        assumption.
Qed.

End Run.

Lemma group_length token model_name msgs (groups : list (list request)) :
  Forall (pass_shape token model_name msgs) groups ->
  (List.length (List.concat groups) <= 2 * List.length groups)%nat.
Proof.
  induction 1 as [|g gs Hg _ IH]; [cbn; lia|].
  cbn [List.concat List.length]. rewrite length_app.
  destruct Hg as [->|[raw ->]]; cbn [List.length]; lia.
Qed.

Lemma group_nonempty token model_name msgs (groups : list (list request)) :
  Forall (pass_shape token model_name msgs) groups ->
  groups <> [] -> List.concat groups <> [].
Proof.
  intros H Hn. destruct H as [|g gs Hg _]; [contradiction|].
  destruct Hg as [->|[raw ->]]; discriminate.
Qed.

Lemma call_hf_extract_no_token (env : Env) (text : str) (w : World) :
  is_empty (token_of env) = true ->
  call_hf_extract env text w = (Raise missing_token, w).
Proof.
  intros Ht. unfold call_hf_extract. fold (token_of env). now rewrite Ht.
Qed.

(** X5: [call_hf_extract] sends no request exactly when the token is unset
    or empty; it then raises [RuntimeError] at once, and the world is as it
    was. *)
Theorem call_hf_extract_token_gate (env : Env) (text : str) (w : World) :
  (requests (snd (call_hf_extract env text w)) = requests w
   <-> is_empty (token_of env) = true) /\
  (is_empty (token_of env) = true ->
   call_hf_extract env text w = (Raise missing_token, w)).
Proof.
  pose proof (call_hf_extract_no_token env text w) as Hoff.
  split; [|exact Hoff]. split.
  - intros Hr. destruct (is_empty (token_of env)) eqn:Ht; [reflexivity|].
    exfalso. rewrite (call_hf_extract_loop _ _ _ Ht) in Hr. unfold loop_of in Hr.
    destruct (attempts_run env (token_of env) (model_of env)
                (base_messages (prefix 8000 text)) [1; 2; 3]%Z NoError w)
      as (groups & j & H1 & H2 & _ & H4 & _).
    rewrite H1 in Hr.
    apply (group_nonempty _ _ _ _ H2); [apply H4; discriminate|].
    rewrite <- (app_nil_r (requests w)) in Hr at 2.
    apply (app_inv_head _ _ _ Hr).
  - intros Ht. now rewrite (Hoff Ht).
Qed.

Lemma call_hf_extract_token_gate_witness :
  let env := {| HF_API_TOKEN := Some []; HF_MODEL := None;
                endpoint := fun _ _ => valid_reply;
                random_random := fun _ => 0%Q; reader_pages := [] |} in
  call_hf_extract env sample_text world0 = (Raise missing_token, world0).
Proof.
  intros env.
  apply (proj2 (call_hf_extract_token_gate env sample_text world0)).
  reflexivity.
Defined.

(** X6: the only exceptions that leave [call_hf_extract] are the
    [RuntimeError] of the missing token, the [RuntimeError] of the
    exhausted retries, which then carries a recorded error, and an
    [HTTPError] whose status is not retryable.  No error of the extractor
    and no other failure of a request gets out. *)
Theorem call_hf_extract_raises_only (env : Env) (text : str) (w w' : World) e :
  call_hf_extract env text w = (Raise e, w') ->
  e = missing_token \/
  (exists d, e = retries_exhausted d /\ d <> NoError) \/
  (exists code reason body, e = HTTPError code reason body /\
                            retryable code = false).
Proof.
  intros H. destruct (is_empty (token_of env)) eqn:Ht.
  - left.
    rewrite (call_hf_extract_no_token env text w Ht) in H.
    inversion H. reflexivity.
  - right. rewrite (call_hf_extract_loop _ _ _ Ht) in H. unfold loop_of in H.
    destruct (attempts_raises _ _ _ _ _ _ _ _ _ H) as [[Hn _]|Hr];
      [discriminate Hn|exact Hr].
Qed.

Lemma call_hf_extract_raises_only_witness :
  let env := stub_env script_400 [] in
  HTTPError 400 (lit "Bad Request") (lit "no") = missing_token \/
  (exists d, HTTPError 400 (lit "Bad Request") (lit "no") = retries_exhausted d
             /\ d <> NoError) \/
  (exists code reason body,
     HTTPError 400 (lit "Bad Request") (lit "no") = HTTPError code reason body /\
     retryable code = false).
Proof.
  intros env.
  apply (call_hf_extract_raises_only env sample_text world0
    {| requests := [primary_request env sample_text];
       sleeps := []; draws := 0; puts := [] |}).
  vm_compute. reflexivity.
Defined.

(** X7: when [call_hf_extract] returns, the text it returns is the trimmed
    reply to the last request sent, the structure it returns is what the
    extractor makes of that text, and the structure is a JSON object. *)
Theorem call_hf_extract_returns_parsed_reply
  (env : Env) (text : str) (w w' : World) obj raw :
  call_hf_extract env text w = (Return (obj, raw), w') ->
  extract_json_object raw = Return obj /\
  (exists members, obj = JObject members) /\
  exists before req reply,
    requests w' = before ++ [req] /\
    endpoint env (List.length before) req = Completion reply /\
    raw = strip reply.
Proof.
  intros H. destruct (is_empty (token_of env)) eqn:Ht.
  - rewrite (call_hf_extract_no_token env text w Ht) in H.
    discriminate H.
  - rewrite (call_hf_extract_loop _ _ _ Ht) in H. unfold loop_of in H.
    destruct (attempts_returns _ _ _ _ _ _ _ _ _ _ H) as (Hx & Hlast).
    repeat split; trivial.
    destruct (extract_returns_object_or_raises _ _ Hx) as [body Hc].
    apply (candidate_decodes_to_object _ _ Hc).
Qed.

Lemma call_hf_extract_returns_parsed_reply_witness :
  extract_json_object (lit "{`document_type`: `other`}") = Return valid_object.
Proof.
  pose (env := stub_env script_503_503_ok []).
  apply (call_hf_extract_returns_parsed_reply env sample_text world0
    {| requests := [primary_request env sample_text;
                    primary_request env sample_text;
                    primary_request env sample_text];
       sleeps := [(3 # 2)%Q; (5 # 2)%Q]; draws := 2; puts := [] |}).
  vm_compute. reflexivity.
Defined.

Lemma call_hf_extract_run (env : Env) (text : str) (w : World) :
  exists groups j,
    requests (snd (call_hf_extract env text w))
    = requests w ++ List.concat groups /\
    Forall (group_of env text) groups /\
    (List.length groups <= 3)%nat /\ (j <= List.length groups)%nat /\
    sleeps (snd (call_hf_extract env text w))
    = sleeps w ++ backoff_delays env (firstn j [1; 2; 3]%Z) (draws w).
Proof.
  destruct (is_empty (token_of env)) eqn:Ht.
  - rewrite (call_hf_extract_no_token env text w Ht).
    exists [], 0%nat. cbn. rewrite !app_nil_r. repeat split; auto.
  - rewrite (call_hf_extract_loop _ _ _ Ht). unfold loop_of.
    destruct (attempts_run env (token_of env) (model_of env)
                (base_messages (prefix 8000 text)) [1; 2; 3]%Z NoError w)
      as (groups & j & H1 & H2 & H3 & _ & H5 & H6).
    exists groups, j. repeat split; assumption.
Qed.

(** X8: one call of [call_hf_extract] sends at most six requests and sleeps
    at most three times, and the sleeps add up to at most ten seconds.
    The hypothesis lets the jitter be 1: [random.random()] is below 1, but
    the sum with the power of two is rounded to a double and may come out
    as the next whole number, so that a delay lies between [2 ^ (n - 1)]
    and [2 ^ (n - 1) + 1], both included. *)
Theorem call_hf_extract_bounds (env : Env) (text : str) (w : World) :
  (forall k, 0 <= random_random env k <= 1)%Q ->
  exists sent slept,
    requests (snd (call_hf_extract env text w)) = requests w ++ sent /\
    sleeps (snd (call_hf_extract env text w)) = sleeps w ++ slept /\
    (List.length sent <= 6)%nat /\ (List.length slept <= 3)%nat /\
    (0 <= total slept <= 10)%Q.
Proof.
  intros Hj.
  destruct (call_hf_extract_run env text w)
    as (groups & j & H1 & H2 & H3 & H4 & H5).
  exists (List.concat groups),
    (backoff_delays env (firstn j [1; 2; 3]%Z) (draws w)).
  split; [exact H1|]. split; [exact H5|]. split.
  { pose proof (group_length _ _ _ _ H2). lia. }
  pose proof (Hj (draws w)) as J0.
  pose proof (Hj (S (draws w))) as J1.
  pose proof (Hj (S (S (draws w)))) as J2.
  assert (Hj3 : (j <= 3)%nat) by lia. clear - Hj3 J0 J1 J2.
  destruct j as [|[|[|[|j]]]]; [| | | |lia];
    cbn [firstn backoff_delays List.length total fold_right];
    unfold base_delay;
    change (inject_Z (2 ^ (1 - 1))) with 1%Q;
    change (inject_Z (2 ^ (2 - 1))) with 2%Q;
    change (inject_Z (2 ^ (3 - 1))) with 4%Q;
    (split; [lia|lra]).
Qed.

Lemma call_hf_extract_bounds_witness :
  let env := stub_env script_prose [] in
  exists sent slept,
    requests (snd (call_hf_extract env sample_text world0)) = [] ++ sent /\
    sleeps (snd (call_hf_extract env sample_text world0)) = [] ++ slept /\
    (List.length sent <= 6)%nat /\ (List.length slept <= 3)%nat /\
    (0 <= total slept <= 10)%Q.
Proof.
  intros env. apply (call_hf_extract_bounds env sample_text world0).
  intros k. cbn. lra.
Defined.

(** X9: every request of one call, primary or repair, goes to the same URL
    with the token and the model read from the environment, temperature 0,
    at most 800 tokens and a time-out of 60 seconds, and carries either the
    primary prompt for the first 8000 characters of the text or a repair
    prompt. *)
Theorem call_hf_extract_requests_well_formed (env : Env) (text : str) (w : World) :
  exists sent,
    requests (snd (call_hf_extract env text w)) = requests w ++ sent /\
    Forall (well_formed_request env text) sent.
Proof.
  destruct (call_hf_extract_run env text w) as (groups & j & H1 & H2 & _).
  exists (List.concat groups). split; [exact H1|].
  clear H1. induction H2 as [|g gs Hg _ IH]; [constructor|].
  cbn [List.concat]. apply Forall_app. split; [|exact IH].
  assert (Hp : well_formed_request env text
                 (build_request (token_of env) (model_of env)
                    (base_messages (prefix 8000 text)))).
  { repeat split. left. reflexivity. }
  assert (Hq : forall raw, well_formed_request env text
                 (build_request (token_of env) (model_of env)
                    (repair_messages raw))).
  { intros raw. repeat split. right. exists raw. reflexivity. }
  destruct Hg as [->|[raw ->]]; repeat (constructor; auto).
Qed.

End ControllerExtras.

(** * Further properties of [lambda_handler] *)

Module DriverExtras.




Lemma output_keys_differ (base : str) (a b : string) :
  lit a <> lit b ->
  PROCESSED_PREFIX ++ base ++ lit a <> PROCESSED_PREFIX ++ base ++ lit b.
Proof.
  intros Hab E. apply app_inv_head in E. apply app_inv_head in E.
  contradiction.
Qed.

(** X10: the four keys of one base name are pairwise different: no object
    written for a document overwrites another of the same document. *)
Theorem output_keys_distinct (raw_key : str) :
  NoDup (expected_outputs raw_key).
Proof.
  unfold expected_outputs. set (base := base_from_raw_key raw_key).
  pose proof (output_keys_differ base) as Hne.
  repeat constructor; cbn [In]; intros H;
    repeat (destruct H as [H|H]; [revert H; apply Hne; vm_compute; discriminate|]);
    exact H.
Qed.

Lemma lstrip_nil_iff (s : str) : lstrip s = [] <-> forallb isspace s = true.
Proof.
  induction s as [|c t IH]; cbn [lstrip forallb]; [tauto|].
  destruct (isspace c); cbn [andb]; [exact IH|].
  split; discriminate.
Qed.

Lemma lstrip_not_space (s : str) c t : lstrip s = c :: t -> isspace c = false.
Proof.
  induction s as [|x s IH]; cbn [lstrip]; [discriminate|].
  destruct (isspace x) eqn:E; [exact IH|].
  intros H. inversion H; subst. exact E.
Qed.

Lemma forallb_rev {A} (f : A -> bool) (l : list A) :
  forallb f (rev l) = forallb f l.
Proof.
  induction l as [|x l IH]; [reflexivity|].
  cbn [rev forallb]. rewrite forallb_app, IH. cbn [forallb].
  rewrite andb_true_r. apply andb_comm.
Qed.

(** [strip] gives the empty string for white space and for nothing else. *)
Lemma strip_nil_iff (s : str) : strip s = [] <-> forallb isspace s = true.
Proof.
  unfold strip, rstrip. split.
  - intros H. apply (f_equal (@rev char)) in H.
    rewrite rev_involutive in H. cbn [rev] in H.
    apply lstrip_nil_iff in H. rewrite forallb_rev in H.
    destruct (lstrip s) as [|c t] eqn:E; [now apply lstrip_nil_iff|].
    apply lstrip_not_space in E. cbn [forallb] in H. rewrite E in H.
    discriminate H.
  - intros H. apply lstrip_nil_iff in H. rewrite H. reflexivity.
Qed.

Lemma is_empty_strip (s : str) :
  is_empty (strip s) = forallb isspace s.
Proof.
  destruct (forallb isspace s) eqn:E.
  - apply strip_nil_iff in E. now rewrite E.
  - destruct (strip s) eqn:Es; [|reflexivity].
    apply strip_nil_iff in Es. congruence.
Qed.

Lemma forallb_join_false (sep : str) (p : str) (rest : list str) :
  forallb isspace p = false ->
  forallb isspace (join sep (p :: rest)) = false.
Proof.
  intros H. cbn [join]. destruct rest; [exact H|].
  rewrite forallb_app, H. reflexivity.
Qed.

(** The joined text is blank exactly when no page was kept. *)
Lemma extracted_text_blank_iff (pages : list (option str)) :
  is_empty (strip (join [NEWLINE; NEWLINE] (pages_text pages)))
  = forallb blank_page pages.
Proof.
  rewrite is_empty_strip. unfold pages_text.
  induction pages as [|p ps IH]; [reflexivity|].
  cbn [map filter forallb]. unfold blank_page at 1.
  rewrite is_empty_strip.
  destruct (forallb isspace (or_empty p)) eqn:E; cbn [negb andb].
  - exact IH.
  - now apply forallb_join_false.
Qed.

Lemma respond_injective (a b : string) :
  respond a = respond b -> lit a = lit b.
Proof. intros H. inversion H. reflexivity. Qed.

(** X11: on a target key the handler answers [no_text] exactly when every
    page of the PDF is without text or holds white space only; blank pages
    among pages with text do not stop the extraction. *)
Theorem no_text_iff_all_pages_blank (env : Env) (ev : event) (w : World) :
  is_target (object_key ev) = true ->
  (fst (lambda_handler env ev w) = respond "no_text"
   <-> forallb blank_page (reader_pages env) = true).
Proof.
  intros Ht. rewrite (DriverClaims.lambda_handler_target _ _ _ Ht).
  unfold extracted_text_of. rewrite extracted_text_blank_iff.
  destruct (forallb blank_page (reader_pages env)).
  - split; reflexivity.
  - destruct (call_hf_extract _ _ _) as [[[obj raw]|e] w3]; cbn [fst];
      split; intros H; try discriminate H;
      apply respond_injective in H; vm_compute in H; discriminate H.
Qed.

Lemma no_text_iff_all_pages_blank_witness :
  fst (lambda_handler (stub_env script_ok [None; Some (lit "  ")])
         sample_event world0) = respond "no_text".
Proof.
  apply (no_text_iff_all_pages_blank
           (stub_env script_ok [None; Some (lit "  ")]) sample_event world0);
    reflexivity.
Defined.

Lemma handler_not_target (env : Env) (ev : event) (w : World) :
  is_target (object_key ev) = false ->
  lambda_handler env ev w = (respond "skipped", w).
Proof.
  intros Hf. unfold lambda_handler. unfold is_target in Hf.
  apply andb_false_iff in Hf. destruct Hf as [-> | ->]; [reflexivity|].
  rewrite orb_true_r. reflexivity.
Qed.



(** [key.split("/")[-1]] is what follows the last slash. *)
Lemma last_segment_after_slash (dir rest : str) :
  ~ In 47 rest -> last_segment (dir ++ [47] ++ rest) = rest.
Proof.
  intros Hn. unfold last_segment. cbn [app]. rewrite (rfind_last _ _ _ Hn).
  destruct (Z.eqb_spec (Z.of_nat (List.length dir)) (-1)); [lia|].
  replace (Z.to_nat (Z.of_nat (List.length dir) + 1))
    with (List.length dir + 1)%nat by lia.
  rewrite skipn_app, skipn_all2 by lia.
  replace (List.length dir + 1 - List.length dir)%nat with 1%nat by lia.
  reflexivity.
Qed.

(** [name.rsplit(".", 1)[0]] is what precedes the last point. *)
Lemma stem_before_point (name ext : str) :
  ~ In 46 ext -> stem (name ++ [46] ++ ext) = name.
Proof.
  intros Hd. unfold stem. cbn [app]. rewrite (rfind_last _ _ _ Hd).
  destruct (Z.eqb_spec (Z.of_nat (List.length name)) (-1)); [lia|].
  rewrite Nat2Z.id, firstn_app, firstn_all, Nat.sub_diag.
  cbn [firstn]. apply app_nil_r.
Qed.

(** X13: for a key [dir/name.ext], with no slash in [name] and [ext] and
    no point in [ext], the base name is [name]: the folders and the last
    extension go, points inside the name stay.  The dashboard computes the
    same base name. *)
Theorem base_name_of_path (dir name ext : str) :
  ~ In 47 name -> ~ In 47 ext -> ~ In 46 ext ->
  let key := dir ++ [47] ++ name ++ [46] ++ ext in
  stem (last_segment key) = name /\ base_from_raw_key key = name.
Proof.
  intros Hn He Hd key.
  assert (Hb : stem (last_segment key) = name).
  { unfold key. rewrite last_segment_after_slash.
    - apply (stem_before_point _ _ Hd).
    - intros Hin. apply in_app_or in Hin.
      destruct Hin as [Hin|Hin]; [tauto|].
      apply in_app_or in Hin.
      destruct Hin as [[Hin|[]]|Hin]; [discriminate Hin|tauto]. }
  split; [exact Hb|exact Hb].
Qed.

Lemma base_name_of_path_witness :
  stem (last_segment (lit "raw/2024" ++ [47] ++ lit "Invoice.v2" ++ [46] ++ lit "PDF"))
  = lit "Invoice.v2".
Proof.
  apply (base_name_of_path (lit "raw/2024") (lit "Invoice.v2") (lit "PDF"));
    vm_compute; intuition discriminate.
Defined.

(** The objects one run of the handler writes on a target key. *)
Lemma handler_writes (env : Env) (ev : event) (w : World) :
  is_target (object_key ev) = true ->
  exists news,
    puts (snd (lambda_handler env ev w)) = puts w ++ news /\
    ((fst (lambda_handler env ev w) = respond "no_text" /\
      news = [text_put env ev; meta_put env ev]) \/
     (fst (lambda_handler env ev w) = respond "processed_with_llm" /\
      exists obj,
        news = [text_put env ev; meta_put env ev; structured_put ev obj]) \/
     (fst (lambda_handler env ev w) = respond "processed_but_llm_failed" /\
      exists e,
        news = [text_put env ev; meta_put env ev; error_put ev e []])).
Proof.
  intros Ht. rewrite (DriverClaims.lambda_handler_target _ _ _ Ht).
  destruct (is_empty (strip (extracted_text_of env))).
  - eexists. split; [|left; split; reflexivity].
    cbn. rewrite <- app_assoc. reflexivity.
  - pose proof (DriverClaims.call_hf_extract_puts env (extracted_text_of env)
      (put_object (meta_put env ev) (put_object (text_put env ev) w))) as Hp.
    destruct (call_hf_extract env (extracted_text_of env) _)
      as [[[obj raw]|e] w3]; cbn [fst snd] in *; eexists;
      (split; [cbn [puts put_object] in *; rewrite Hp, <- !app_assoc; reflexivity|]).
    + right. left. split; [reflexivity|]. exists obj. reflexivity.
    + right. right. split; [reflexivity|]. exists e. reflexivity.
Qed.

(** X14: every object the handler writes goes to the bucket of the event
    under one of the four keys the dashboard computes from the same raw
    key. *)
Theorem dashboard_polls_written_keys (env : Env) (ev : event) (w : World) :
  exists news,
    puts (snd (lambda_handler env ev w)) = puts w ++ news /\
    Forall (fun p => Bucket p = bucket_name ev /\
                     In (Key p) (expected_outputs (object_key ev))) news.
Proof.
  destruct (is_target (object_key ev)) eqn:Ht.
  - destruct (handler_writes env ev w Ht) as (news & Hp & Hc).
    exists news. split; [exact Hp|].
    destruct Hc as [[_ ->]|[[_ [obj ->]]|[_ [e ->]]]];
      repeat constructor; cbn; tauto.
  - exists []. rewrite (handler_not_target env ev w Ht).
    cbn. rewrite app_nil_r. split; [reflexivity|constructor].
Qed.

Lemma written_app (w : World) (bucket key : str) (news : list put) :
  forall w', puts w' = puts w ++ news ->
  written w' bucket key
  = written w bucket key
    || existsb (fun p => str_eqb (Bucket p) bucket && str_eqb (Key p) key) news.
Proof. intros w' H. unfold written. rewrite H. apply existsb_app. Qed.



(** X16: when the handler answers [processed_with_llm], the last object it
    wrote is the structured record, and the record is a JSON object: the
    one the extractor reads from the trimmed reply to the last request
    sent. *)
Theorem structured_record_is_parsed_reply (env : Env) (ev : event) (w : World) :
  fst (lambda_handler env ev w) = respond "processed_with_llm" ->
  exists members before req reply earlier,
    puts (snd (lambda_handler env ev w))
    = earlier ++ [structured_put ev (JObject members)] /\
    requests (snd (lambda_handler env ev w)) = before ++ [req] /\
    endpoint env (List.length before) req = Completion reply /\
    extract_json_object (strip reply) = Return (JObject members).
Proof.
  intros Hb. destruct (is_target (object_key ev)) eqn:Ht.
  - revert Hb. rewrite (DriverClaims.lambda_handler_target _ _ _ Ht).
    destruct (is_empty (strip (extracted_text_of env))).
    { intros Hb. apply respond_injective in Hb. vm_compute in Hb.
      discriminate Hb. }
    destruct (call_hf_extract env (extracted_text_of env) _)
      as [[[obj raw]|e] w3] eqn:Hc; cbn [fst snd]; intros Hb.
    + destruct (is_empty (token_of env)) eqn:Hk.
      { rewrite (ControllerExtras.call_hf_extract_no_token _ _ _ Hk) in Hc.
        discriminate Hc. }
      rewrite (call_hf_extract_loop _ _ _ Hk) in Hc. unfold loop_of in Hc.
      destruct (ControllerExtras.attempts_returns _ _ _ _ _ _ _ _ _ _ Hc)
        as (Hx & before & req & reply & Hr & He & ->).
      destruct (ExtractorExtras.extract_returns_object_or_raises _ _ Hx)
        as [body Hd].
      destruct (ExtractorExtras.candidate_decodes_to_object _ _ Hd)
        as [members ->].
      exists members, before, req, reply, (puts w3).
      repeat split; assumption.
    + apply respond_injective in Hb. vm_compute in Hb. discriminate Hb.
  - rewrite (handler_not_target env ev w Ht) in Hb.
    apply respond_injective in Hb. vm_compute in Hb. discriminate Hb.
Qed.

Lemma structured_record_is_parsed_reply_witness :
  let env := stub_env script_503_503_ok sample_pages in
  exists members before req reply earlier,
    puts (snd (lambda_handler env sample_event world0))
    = earlier ++ [structured_put sample_event (JObject members)] /\
    requests (snd (lambda_handler env sample_event world0)) = before ++ [req] /\
    endpoint env (List.length before) req = Completion reply /\
    extract_json_object (strip reply) = Return (JObject members).
Proof.
  intros env.
  apply (structured_record_is_parsed_reply env sample_event world0).
  vm_compute. reflexivity.
Defined.



End DriverExtras.

(** * Properties of the dashboard *)

Module DashboardExtras.
Import DriverExtras.

Lemma insert_newest_perm (x : listed) (l : list listed) :
  Permutation (insert_newest x l) (x :: l).
Proof.
  induction l as [|y l IH]; cbn [insert_newest]; [reflexivity|].
  destruct (last_modified x <? last_modified y)%Z; [|reflexivity].
  rewrite IH. apply perm_swap.
Qed.

Lemma sort_newest_first_perm (l : list listed) :
  Permutation (sort_newest_first l) l.
Proof.
  induction l as [|x l IH]; [reflexivity|].
  cbn [sort_newest_first fold_right]. fold (sort_newest_first l).
  rewrite insert_newest_perm. now constructor.
Qed.

Lemma insert_newest_sorted (x : listed) (l : list listed) :
  StronglySorted newer_or_equal l ->
  StronglySorted newer_or_equal (insert_newest x l).
Proof.
  induction 1 as [|y l Hs IH Hy]; cbn [insert_newest].
  - repeat constructor.
  - destruct (Z.ltb_spec (last_modified x) (last_modified y)) as [Hlt|Hge].
    + constructor; [exact IH|].
      apply (Permutation_Forall (Permutation_sym (insert_newest_perm x l))).
      constructor; [unfold newer_or_equal; lia|exact Hy].
    + constructor; [constructor; assumption|].
      constructor; [exact Hge|].
      apply (Forall_impl _ (P := newer_or_equal y)); [|exact Hy].
      unfold newer_or_equal. intros z Hz. lia.
Qed.

Lemma sort_newest_first_sorted (l : list listed) :
  StronglySorted newer_or_equal (sort_newest_first l).
Proof.
  induction l as [|x l IH]; [constructor|].
  cbn [sort_newest_first fold_right]. now apply insert_newest_sorted.
Qed.

Lemma sort_newest_first_fixed (l : list listed) :
  StronglySorted newer_or_equal l -> sort_newest_first l = l.
Proof.
  induction 1 as [|x l Hs IH Hx]; [reflexivity|].
  cbn [sort_newest_first fold_right]. fold (sort_newest_first l). rewrite IH.
  destruct l as [|y l]; [reflexivity|]. cbn [insert_newest].
  inversion Hx as [|? ? Hxy _]; subst. unfold newer_or_equal in Hxy.
  destruct (Z.ltb_spec (last_modified x) (last_modified y)); [lia|reflexivity].
Qed.

(** X18: [list_objects] returns every entry of every page of the listing,
    each as often as it was listed, newest first; pages without
    [Contents] add nothing; a listing that is newest first already comes
    back as it is, entries of equal time in their order. *)
Theorem list_objects_sorted_permutation (pages : list (option (list listed))) :
  let keys :=
    List.concat (map (fun p => match p with Some c => c | None => [] end) pages) in
  Permutation (list_objects pages) keys /\
  StronglySorted newer_or_equal (list_objects pages) /\
  (StronglySorted newer_or_equal keys -> list_objects pages = keys).
Proof.
  intros keys. unfold list_objects. fold keys. repeat split.
  - apply sort_newest_first_perm.
  - apply sort_newest_first_sorted.
  - apply sort_newest_first_fixed.
Qed.

Lemma list_objects_sorted_permutation_witness :
  let a := {| listed_key := lit "raw/1_a.pdf"; last_modified := 30; listed_size := 5 |} in
  let b := {| listed_key := lit "raw/2_b.pdf"; last_modified := 30; listed_size := 7 |} in
  let c := {| listed_key := lit "raw/0_c.pdf"; last_modified := 10; listed_size := 9 |} in
  list_objects [Some [a]; None; Some [b; c]] = [a; b; c].
Proof.
  intros a b c.
  apply (list_objects_sorted_permutation [Some [a]; None; Some [b; c]]).
  cbn. unfold newer_or_equal. repeat constructor; cbn; lia.
Defined.

Lemma sorted_app_order (a b : list listed) :
  StronglySorted newer_or_equal (a ++ b) ->
  forall x y, In x a -> In y b -> newer_or_equal x y.
Proof.
  induction a as [|z a IH]; intros Hs x y Hx Hy; [destruct Hx|].
  cbn [app] in Hs. inversion Hs as [|? ? Hs' Hz]; subst.
  destruct Hx as [->|Hx].
  - rewrite Forall_forall in Hz. apply Hz. apply in_or_app. now right.
  - apply (IH Hs' _ _ Hx Hy).
Qed.

(** X19: the first [n] entries of [list_objects], the 20 and 30 the page
    shows among them, are the newest ones: none of the entries left out is
    newer than one shown, and no more than [n] are shown. *)
Theorem list_objects_newest_first_n
  (pages : list (option (list listed))) (n : nat) :
  let shown := firstn n (list_objects pages) in
  let hidden := skipn n (list_objects pages) in
  (List.length shown <= n)%nat /\
  Permutation (shown ++ hidden) (list_objects pages) /\
  forall x y, In x shown -> In y hidden ->
              (last_modified y <= last_modified x)%Z.
Proof.
  intros shown hidden. repeat split.
  - apply firstn_le_length.
  - unfold shown, hidden. now rewrite firstn_skipn.
  - apply sorted_app_order. unfold shown, hidden. rewrite firstn_skipn.
    apply sort_newest_first_sorted.
Qed.

Lemma list_objects_newest_first_n_witness :
  let a := {| listed_key := lit "raw/1_a.pdf"; last_modified := 30; listed_size := 5 |} in
  let c := {| listed_key := lit "raw/0_c.pdf"; last_modified := 10; listed_size := 9 |} in
  (last_modified c <= last_modified a)%Z.
Proof.
  intros a c.
  apply (proj2 (proj2 (list_objects_newest_first_n [Some [c]; Some [a]] 1)) a c);
    cbn; tauto.
Defined.

Lemma startswith_app (p x : str) : startswith p (p ++ x) = true.
Proof.
  induction p as [|a p IH]; [reflexivity|].
  cbn [app startswith]. now rewrite N.eqb_refl, IH.
Qed.

Lemma startswith_app_r (q x y : str) :
  startswith q x = true -> startswith q (x ++ y) = true.
Proof.
  revert x. induction q as [|a q IH]; intros x H; [reflexivity|].
  destruct x as [|b x]; [discriminate H|].
  cbn [app startswith] in *. apply andb_prop in H. destruct H as [-> H].
  now rewrite (IH _ H).
Qed.

Lemma endswith_app (p a b : str) :
  endswith p b = true -> endswith p (a ++ b) = true.
Proof.
  unfold endswith. intros H. rewrite rev_app_distr.
  now apply startswith_app_r.
Qed.

Lemma lower_app (a b : str) : lower (a ++ b) = lower a ++ lower b.
Proof. apply map_app. Qed.

Lemma startswith_map (q : str) (f g : char -> char) (s : str) :
  (forall c x, In x q -> f c = x -> g c = x) ->
  startswith q (map f s) = true -> startswith q (map g s) = true.
Proof.
  revert s. induction q as [|a q IH]; intros s Hfg H; [reflexivity|].
  destruct s as [|c s]; [discriminate H|].
  cbn [map startswith] in *. apply andb_prop in H. destruct H as [Ha H].
  apply N.eqb_eq in Ha. apply andb_true_intro. split.
  - apply N.eqb_eq. symmetry. apply (Hfg c a); [now left|now symmetry].
  - apply IH; [|exact H]. intros c' x Hx. apply Hfg. now right.
Qed.

Lemma is_pdf_name_safe (filename : str) :
  is_pdf_name filename = true -> is_pdf_name (replace 32 95 filename) = true.
Proof.
  unfold is_pdf_name, endswith, lower, replace.
  rewrite map_map, <- !map_rev.
  apply startswith_map. intros c x Hx E.
  destruct (N.eqb_spec c 32) as [->|_]; [|exact E].
  subst x. vm_compute in Hx. intuition discriminate.
Qed.

Lemma in_replace (a b x : char) (s : str) :
  In x (replace a b s) -> x <> b -> In x s.
Proof.
  unfold replace. intros H Hx. apply in_map_iff in H.
  destruct H as (c & E & Hc).
  destruct (c =? a); subst x; [now contradiction Hx|exact Hc].
Qed.

Lemma replace_app (a b : char) (s t : str) :
  replace a b (s ++ t) = replace a b s ++ replace a b t.
Proof. apply map_app. Qed.

Lemma uint_chars_digits (u : Decimal.uint) (c : char) :
  In c (uint_chars u) -> 48 <= c <= 57.
Proof.
  induction u; cbn [uint_chars In]; try tauto;
    (intros [<-|H]; [lia|now apply IHu]).
Qed.

Lemma str_of_int_no_slash (n : Z) : ~ In 47 (str_of_int n).
Proof.
  unfold str_of_int. destruct (Z.to_int n) as [u|u]; cbn [In]; intros H.
  - apply uint_chars_digits in H. lia.
  - destruct H as [H|H]; [discriminate H|]. apply uint_chars_digits in H. lia.
Qed.

(** X20: the key [upload_pdf] writes to is under [raw/]; when the file name
    ends in [.pdf], in any case of the letters, the key is one the handler
    processes; and for a file name [name.ext] without a slash the base
    name of the key, from which the dashboard and the handler build the
    output keys, is the time stamp, an underscore and [name] with its
    spaces made underscores. *)
Theorem upload_pdf_key (bucket : str) (now : Z) (file_bytes : list N)
  (filename : str) :
  let key := fst (upload_pdf bucket now file_bytes filename) in
  upload_key (snd (upload_pdf bucket now file_bytes filename)) = key /\
  startswith RAW_PREFIX key = true /\
  (is_pdf_name filename = true -> is_target key = true) /\
  (forall name ext,
     filename = name ++ [46] ++ ext -> ~ In 47 filename -> ~ In 46 ext ->
     base_from_raw_key key = str_of_int now ++ lit "_" ++ replace 32 95 name).
Proof.
  intros key. unfold upload_pdf in key. cbn [fst] in key.
  assert (Hs : startswith RAW_PREFIX key = true) by apply startswith_app.
  repeat split; trivial.
  - intros Hp. unfold is_target.
    change (lit "raw/") with RAW_PREFIX. rewrite Hs. cbn [andb].
    unfold key. rewrite !lower_app.
    do 3 apply endswith_app. apply (is_pdf_name_safe _ Hp).
  - intros name ext -> Hn Hd. unfold key.
    rewrite !replace_app. change (replace 32 95 [46]) with [46].
    assert (H1 : ~ In 47 (str_of_int now ++ lit "_" ++ replace 32 95 name)).
    { intros Hin. apply in_app_or in Hin. destruct Hin as [Hin|Hin].
      { now apply str_of_int_no_slash in Hin. }
      apply in_app_or in Hin. destruct Hin as [Hin|Hin].
      { vm_compute in Hin. intuition discriminate. }
      apply in_replace in Hin; [|discriminate].
      apply Hn. apply in_or_app. now left. }
    assert (H2 : ~ In 47 (replace 32 95 ext)).
    { intros Hin. apply in_replace in Hin; [|discriminate].
      apply Hn. apply in_or_app. right. apply in_or_app. now right. }
    assert (H3 : ~ In 46 (replace 32 95 ext)).
    { intros Hin. apply in_replace in Hin; [|discriminate]. contradiction. }
    transitivity (stem (last_segment
      (lit "raw" ++ [47] ++ (str_of_int now ++ lit "_" ++ replace 32 95 name)
       ++ [46] ++ replace 32 95 ext))).
    { unfold base_from_raw_key. do 2 f_equal.
      change RAW_PREFIX with (lit "raw" ++ [47]).
      rewrite <- !app_assoc. reflexivity. }
    rewrite last_segment_after_slash.
    + apply (stem_before_point _ _ H3).
    + intros Hin. apply in_app_or in Hin. destruct Hin as [Hin|Hin]; [tauto|].
      apply in_app_or in Hin.
      destruct Hin as [[Hin|[]]|Hin]; [discriminate Hin|tauto].
Qed.

Lemma upload_pdf_key_witness :
  let key := fst (upload_pdf (lit "docs") 1700000000 [37; 80; 68; 70]
                    (lit "My Invoice.PDF")) in
  is_target key = true /\
  base_from_raw_key key = lit "1700000000_My_Invoice".
Proof.
  intros key.
  destruct (upload_pdf_key (lit "docs") 1700000000 [37; 80; 68; 70]
              (lit "My Invoice.PDF")) as (_ & _ & Ht & Hb).
  split.
  - apply Ht. reflexivity.
  - apply (Hb (lit "My Invoice") (lit "PDF")); vm_compute;
      intuition discriminate.
Defined.

End DashboardExtras.
